(** * dictionaryGenerator: wordlist filtering, padding and case expansion

    A shallow embedding of [dictionaryGenerator.py].  A Python [str] is a
    sequence of Unicode code points, so a string is a [list N]; the bytes of
    the source file are a Rocq [string], decoded as latin-1 (one code point
    per byte).  Python sets are [gset]s, the dictionaries of the program are
    association lists in their insertion order, and the three commands run
    in a small state-and-exception monad over the file contents and the
    terminal. *)

From Stdlib Require Import ZArith NArith Ascii String List Lia.
From stdpp Require Import base option list gmap sets strings.

Open Scope N_scope.
Open Scope list_scope.

(** ** Python strings *)

Module Py.

(** A character ([str] of length one) is its code point. *)
Abbreviation char := N.
Abbreviation str := (list N).

(** [bytes.decode('latin-1')]: every byte is the code point of its value. *)
Definition decode_latin1 (s : string) : str :=
  N_of_ascii <$> list_ascii_of_string s.

(** A string literal of the program (all of them are below U+0100). *)
Definition lit (s : string) : str := decode_latin1 s.

(** [str.isspace] on one character: the Unicode white space. *)
Definition isspace (c : char) : bool :=
  ((9 <=? c) && (c <=? 13)) || ((28 <=? c) && (c <=? 32))
  || (c =? 133) || (c =? 160) || (c =? 5760)
  || ((8192 <=? c) && (c <=? 8202)) || (c =? 8232) || (c =? 8233)
  || (c =? 8239) || (c =? 8287) || (c =? 12288).

Fixpoint lstrip (s : str) : str :=
  match s with
  | [] => []
  | c :: s' => if isspace c then lstrip s' else s
  end.

Definition rstrip (s : str) : str := rev (lstrip (rev s)).

(** [str.strip()] *)
Definition strip (s : str) : str := rstrip (lstrip s).

(** [s.split(sep)] for a separator of one character: one segment more than
    there are separators, empty segments kept. *)
Fixpoint split (sep : char) (s : str) : list str :=
  match s with
  | [] => [[]]
  | c :: s' =>
      if c =? sep then [] :: split sep s'
      else match split sep s' with
           | seg :: segs => (c :: seg) :: segs
           | [] => [[c]]
           end
  end.

(** [sep.join(words)] *)
Fixpoint join (sep : str) (words : list str) : str :=
  match words with
  | [] => []
  | [w] => w
  | w :: ws => w ++ sep ++ join sep ws
  end.

(** [s.replace(old, new)] for [old] of one character: every occurrence. *)
Definition replace (s : str) (old : char) (new : str) : str :=
  flat_map (fun c => if c =? old then new else [c]) s.

(** [old in s] for [old] of one character. *)
Definition contains (s : str) (old : char) : bool :=
  existsb (N.eqb old) s.

(** [char.lower()] on the code points a latin-1 line decodes to; above
    U+00FF, which no word of the program contains, the character is left
    as it is. *)
Definition lower (c : char) : str :=
  if (65 <=? c) && (c <=? 90) then [c + 32]
  else if (192 <=? c) && (c <=? 222) && negb (c =? 215) then [c + 32]
  else [c].

(** [char.upper()] on the same range: the sharp s becomes two letters, the
    micro sign and y with diaeresis leave latin-1. *)
Definition upper (c : char) : str :=
  if (97 <=? c) && (c <=? 122) then [c - 32]
  else if c =? 181 then [924]
  else if c =? 223 then [83; 83]
  else if (224 <=? c) && (c <=? 254) && negb (c =? 247) then [c - 32]
  else if c =? 255 then [376]
  else [c].

(** [itertools.product] over a list of pools, as its documentation
    defines it:
    [result = [[]]; for pool in pools:
       result = [x+[y] for x in result for y in pool]]. *)
Definition product {A} (pools : list (list A)) : list (list A) :=
  fold_left
    (fun result pool => flat_map (fun x => map (fun y => x ++ [y]) pool) result)
    pools [[]].

(** Iterating a string yields its characters, each a string of length one. *)
Definition chars (s : str) : list str := map (fun c => [c]) s.

(** [''.join(t)] *)
Definition concat_str (t : list str) : str := concat t.

(** A dictionary with string keys, in insertion order. *)
Definition dict (V : Type) := list (str * V).

Fixpoint dict_get {V} (d : dict V) (key : str) : option V :=
  match d with
  | [] => None
  | (k, v) :: d' => if decide (k = key) then Some v else dict_get d' key
  end.

End Py.

Import Py.

(** The double quote, written by its code. *)
Definition dquote : str := [34].

(** ** Character tables *)

Definition special_raw : str :=
  lit "!" ++ dquote ++ lit "#$%&\'()*+,-./:;<=>?@[\\]^_`{|}~".

Definition special : str :=
  lit "!" ++ dquote ++ lit "#$%&'()*+,-./:;<=>?@[\]^_`{|}~".

(** [predefined_charsets] of [parse_charset]; the [?s] entry is a raw
    string and keeps its three backslashes. *)
Definition predefined_charsets : dict str :=
  [ (lit "?l", lit "abcdefghijklmnopqrstuvwxyz");
    (lit "?u", lit "ABCDEFGHIJKLMNOPQRSTUVWXYZ");
    (lit "?d", lit "0123456789");
    (lit "?h", lit "0123456789abcdef");
    (lit "?H", lit "0123456789ABCDEF");
    (lit "?s", special_raw);
    (lit "?a", lit "abcdefghijklmnopqrstuvwxyzABCDEFGHIJKLMNOPQRSTUVWXYZ0123456789"
               ++ special) ].

Definition parse_charset (charset : str) : str :=
  match dict_get predefined_charsets charset with
  | Some table => table
  | None => charset
  end.

(** The accent table of the source, code point by code point. *)
Definition accents : str :=
  [195; 161; 195; 169; 195; 173; 195; 179; 195; 186; 195; 129; 195; 137;
   195; 141; 195; 147; 195; 154; 195; 177; 195; 145; 195; 188; 195; 156].

Definition predefined_blacklists : dict str :=
  [ (lit "?l", lit "abcdefghijklmnopqrstuvwxyz");
    (lit "?u", lit "ABCDEFGHIJKLMNOPQRSTUVWXYZ");
    (lit "?d", lit "0123456789");
    (lit "?a", accents);
    (lit "?s", special_raw) ].

(** ** extractWords: the blacklist *)

Definition qmark : char := 63.

(** One turn of [for condition in conditions.split('?')]. *)
Definition blacklist_update (blacklist : gset N) (condition : str) : gset N :=
  match condition with
  | [] => blacklist
  | _ =>
      let key := lit "?" ++ condition in
      match dict_get predefined_blacklists key with
      | Some table => blacklist ∪ list_to_set table
      | None => blacklist ∪ list_to_set condition
      end
  end.

Definition build_blacklist (conditions : str) : gset N :=
  match conditions with
  | [] => ∅
  | _ => fold_left blacklist_update (split qmark conditions) ∅
  end.

(** ** extractWords: the loop over the lines *)

Record lengths := {
  max_length : option Z;
  exact_length : option Z;
  min_length : option Z
}.

Definition length_rejected (a : lengths) (word_length : Z) : bool :=
  (match max_length a with Some n => (word_length >? n)%Z | None => false end)
  || (match exact_length a with
      | Some n => negb (word_length =? n)%Z
      | None => false
      end)
  || (match min_length a with Some n => (word_length <? n)%Z | None => false end).

Definition blacklisted (blacklist : gset N) (word : str) : bool :=
  negb (bool_decide (blacklist = ∅))
  && existsb (fun c => bool_decide (c ∈ blacklist)) word.

Definition extract_line (a : lengths) (blacklist : gset N)
    (filtered_words : list str) (line : string) : list str :=
  let word := strip (decode_latin1 line) in
  let word_length := Z.of_nat (length word) in
  if length_rejected a word_length then filtered_words
  else if blacklisted blacklist word then filtered_words
  else filtered_words ++ [word].

Definition extract_lines_with (a : lengths) (blacklist : gset N)
    (lines : list string) : list str :=
  fold_left (extract_line a blacklist) lines [].

Definition extract_lines (a : lengths) (conditions : str)
    (lines : list string) : list str :=
  extract_lines_with a (build_blacklist conditions) lines.

(** ** generateDictionary: padding one word *)

(** The body of [for line in f] once the line is stripped.  The characters
    of [padding] are strings of length one, joined by [''.join]. *)
Definition pad_word (max_length : Z) (charset : str) (prepend : bool)
    (generated_words : list str) (word : str) : list str :=
  if (Z.of_nat (length word) =? max_length)%Z then generated_words ++ [word]
  else if (Z.of_nat (length word) <? max_length)%Z then
    let padding_length := (max_length - Z.of_nat (length word))%Z in
    fold_left
      (fun generated_words padding =>
         let new_word :=
           if prepend then concat_str padding ++ word
           else word ++ concat_str padding in
         generated_words ++ [new_word])
      (product (repeat (chars charset) (Z.to_nat padding_length)))
      generated_words
  else generated_words.

Definition pad_lines (max_length : Z) (charset : str) (prepend : bool)
    (lines : list string) : list str :=
  fold_left
    (fun generated_words line =>
       pad_word max_length charset prepend generated_words
         (strip (decode_latin1 line)))
    lines [].

(** ** generateCombinatory: case variants and substitutions *)

Definition ord (a : ascii) : char := N_of_ascii a.

Definition substitutions : list (char * list str) :=
  [ (ord "a", [lit "4"; lit "@"]);
    (ord "b", [lit "8"]);
    (ord "c", [lit "<"; lit "("]);
    (ord "e", [lit "3"]);
    (ord "g", [lit "6"; lit "9"]);
    (ord "i", [lit "1"; lit "!"]);
    (ord "l", [lit "1"; lit "|"]);
    (ord "o", [lit "0"]);
    (ord "s", [lit "5"; lit "$"]);
    (ord "t", [lit "7"; lit "+"]);
    (ord "z", [lit "2"]) ].

(** [set(''.join(c) for c in itertools.product(
       *[(char.lower(), char.upper()) for char in word]))] *)
Definition case_combos (word : str) : gset str :=
  list_to_set
    (concat_str <$> product ((fun char => [lower char; upper char]) <$> word)).

(** [substitutions_combos] after the loop over [substitutions.items()].
    It starts as [set(combo)], the set of the characters of [combo]. *)
Definition substitutions_combos (combo : str) : gset str :=
  fold_left
    (fun acc '(char, subs) =>
       if contains combo char then
         fold_left (fun acc sub => acc ∪ {[ replace combo char sub ]}) subs acc
       else acc)
    substitutions (list_to_set (chars combo)).

(** The body of [for line in f] once the line is stripped.  Python leaves
    the order in which a set is iterated open; the order of its [elements]
    stands for it, and what is said of the lines written is said up to
    their order. *)
Definition combinatory_word (extended : bool)
    (generated_words : list str) (word : str) : list str :=
  let combos := case_combos word in
  let generated_words := generated_words ++ elements combos in
  if extended then
    fold_left
      (fun generated_words combo =>
         generated_words ++ elements (substitutions_combos combo))
      (elements combos) generated_words
  else generated_words.

Definition combinatory_lines (extended : bool) (lines : list string)
    : list str :=
  fold_left
    (fun generated_words line =>
       combinatory_word extended generated_words (strip (decode_latin1 line)))
    lines [].

(** ** Files, the terminal and exceptions *)

Inductive exception :=
  | FileNotFoundError
  | UnicodeEncodeError
  | OtherException (what : string).

(** The three [print] calls of each command. *)
Inductive message :=
  | SavedTo (what output : string)
  | NotFound (file : string)
  | ErrorOccurred (e : exception).

(** What the operating system answers: [read_lines path] is what opening
    [path] for reading and iterating over its lines gives, [append_raises
    path] the exception that opening [path] in append mode raises, if any. *)
Record os := {
  read_lines : string → exception + list string;
  append_raises : string → option exception
}.

(** The contents of the files written so far (a path maps to nothing when
    there is no such file) and the lines printed. *)
Record state := {
  files : gmap string string;
  stdout : list message
}.

Definition M (A : Type) : Type := state → (exception + A) * state.

#[global] Instance M_ret : MRet M := fun A x σ => (inr x, σ).

#[global] Instance M_bind : MBind M := fun A B k m σ =>
  match m σ with
  | (inl e, σ') => (inl e, σ')
  | (inr x, σ') => k x σ'
  end.

(** [try: body except ...: handler] *)
Definition try_except {A} (body : M A) (handler : exception → M A) : M A :=
  fun σ =>
    match body σ with
    | (inl e, σ') => handler e σ'
    | r => r
    end.

Definition print (m : message) : M unit :=
  fun σ => (inr (), {| files := files σ; stdout := stdout σ ++ [m] |}).

(** [str.encode('latin-1')] *)
Definition encode_latin1 (text : str) : exception + string :=
  if forallb (fun c => c <? 256) text
  then inr (string_of_list_ascii (ascii_of_N <$> text))
  else inl UnicodeEncodeError.

Definition newline : str := [10].

Section Commands.

Variable sys : os.

(** [with open(file, 'r', encoding='latin-1') as f: for line in f] *)
Definition open_read (file : string) : M (list string) :=
  fun σ => (read_lines sys file, σ).

(** [with open(output, 'a', encoding='latin-1') as out_file:
      out_file.write(text)]: opening creates the file, and the text is
    encoded before any of it is written. *)
Definition append_text (output : string) (text : str) : M unit :=
  fun σ =>
    match append_raises sys output with
    | Some e => (inl e, σ)
    | None =>
        let old := default EmptyString (files σ !! output) in
        match encode_latin1 text with
        | inl e =>
            (inl e, {| files := <[output := old]> (files σ);
                       stdout := stdout σ |})
        | inr bytes =>
            (inr (), {| files := <[output := String.append old bytes]> (files σ);
                        stdout := stdout σ |})
        end
    end.

(** The two [except] clauses shared by the commands. *)
Definition report (file : string) (e : exception) : M unit :=
  match e with
  | FileNotFoundError => print (NotFound file)
  | _ => print (ErrorOccurred e)
  end.

(** [out_file.write("\n".join(words) + "\n")] *)
Definition save (output : string) (words : list str) : M unit :=
  append_text output (join newline words ++ newline).

Definition extractWords (file : string) (a : lengths) (conditions : str)
    (output : string) : M unit :=
  let blacklist := build_blacklist conditions in
  try_except
    (lines ← open_read file;
     let filtered_words := extract_lines_with a blacklist lines in
     _ ← save output filtered_words;
     print (SavedTo "Extracted words" output))
    (report file).

Definition generateDictionary (file : string) (max_length : Z) (charset : str)
    (output : string) (prepend : bool) : M unit :=
  try_except
    (let charset := parse_charset charset in
     lines ← open_read file;
     let generated_words := pad_lines max_length charset prepend lines in
     _ ← save output generated_words;
     print (SavedTo "Generated words" output))
    (report file).

Definition generateCombinatory (file : string) (output : string)
    (extended : bool) : M unit :=
  try_except
    (lines ← open_read file;
     let generated_words := combinatory_lines extended lines in
     _ ← save output (elements (list_to_set generated_words : gset str));
     print (SavedTo "Combinatory words" output))
    (report file).

End Commands.

(** ** The notions the properties are stated with *)

(** The word the program makes of a line of the source. *)
Definition word_of (line : string) : str := strip (decode_latin1 line).

(** A length constraint holds: at most the maximum, equal to the exact
    length, at least the minimum, for each of the three that is given. *)
Definition length_ok (a : lengths) (n : Z) : Prop :=
  match max_length a with Some m => (n ≤ m)%Z | None => True end
  ∧ match exact_length a with Some m => n = m | None => True end
  ∧ match min_length a with Some m => (m ≤ n)%Z | None => True end.

(** A word passes the filter: its length is accepted and none of its
    characters is in the blacklist. *)
Definition kept (a : lengths) (blacklist : gset N) (word : str) : Prop :=
  length_ok a (Z.of_nat (length word)) ∧ Forall (fun c => c ∉ blacklist) word.

(** One segment of a blacklist specification, with the marker put back:
    the named table when there is one, else the characters themselves. *)
Definition resolve_segment (segment : str) : gset N :=
  match dict_get predefined_blacklists (qmark :: segment) with
  | Some table => list_to_set table
  | None => list_to_set segment
  end.

Definition resolved_blacklist (conditions : str) : gset N :=
  ⋃ (resolve_segment <$> filter (fun segment => segment ≠ []) (split qmark conditions)).


(** No length is refused. *)
Definition any_length : lengths :=
  {| max_length := None; exact_length := None; min_length := Some 0%Z |}.

(** The paddings of [k] characters, in the order of the enumeration. *)
Definition paddings (charset : str) (k : nat) : list str :=
  concat_str <$> product (repeat (chars charset) k).

(** A word with its padding, after it or before it. *)
Definition padded (prepend : bool) (word padding : str) : str :=
  if prepend then padding ++ word else word ++ padding.

(** [str.casefold] on the code points the case variants of a latin-1 word
    are made of. *)
Definition casefold_char (c : char) : str :=
  if (65 <=? c) && (c <=? 90) then [c + 32]
  else if c =? 181 then [956]
  else if (192 <=? c) && (c <=? 222) && negb (c =? 215) then [c + 32]
  else if c =? 223 then [115; 115]
  else if c =? 376 then [255]
  else if c =? 924 then [956]
  else [c].

Definition casefold (s : str) : str := flat_map casefold_char s.

(** The word with the case chosen at every position: upper case where the
    choice is [true], lower case where it is [false]. *)
Definition case_choice (choices : list bool) (word : str) : str :=
  concat (zip_with (fun (up : bool) c => if up then upper c else lower c)
            choices word).

(** The strings got from a case variant by one substitution: one letter of
    the table that the variant contains, one of its replacements, every
    occurrence of the letter replaced. *)
Definition single_substitutions (combo : str) : list str :=
  flat_map
    (fun '(char, subs) =>
       if contains combo char then replace combo char <$> subs else [])
    substitutions.

(** Both cases of a character fold to what the character folds to. *)
Definition folds_alike (c : char) : bool :=
  bool_decide (casefold (lower c) = casefold_char c)
  && bool_decide (casefold (upper c) = casefold_char c).

(** The sharp s of latin-1, alone on its line. *)
Definition sharp_s : string := String "223" EmptyString.

(** The byte of a line feed. *)
Definition line_feed : string := String "010" EmptyString.

(** Three answers of the operating system: the source is missing; the
    source is empty; the source has the line ["go"] and the directory of
    the output is missing. *)
Definition source_missing : os :=
  {| read_lines := fun _ => inl FileNotFoundError;
     append_raises := fun _ => None |}.

Definition source_empty : os :=
  {| read_lines := fun _ => inr [];
     append_raises := fun _ => None |}.

Definition output_directory_missing : os :=
  {| read_lines := fun _ => inr ["go"%string];
     append_raises := fun _ => Some FileNotFoundError |}.

(** An output file that holds one word already, and nothing printed. *)
Definition one_word_written : state :=
  {| files := {[ "out.txt"%string := "word"%string ]}; stdout := [] |}.

(** No file written, nothing printed. *)
Definition nothing_written : state := {| files := ∅; stdout := [] |}.

(** The bytes of a latin-1 text, as [encode_latin1] gives them. *)
Definition bytes_of (text : str) : string :=
  string_of_list_ascii (ascii_of_N <$> text).

(** A word as a line of a source file: its bytes and a line feed. *)
Definition line_of (word : str) : string :=
  String.append (bytes_of word) line_feed.

(** A run only appends to its output: every other file is as it was, what
    the output held is still at its start, and one line is printed. *)
Definition only_appends (output : string) (σ σ' : state) : Prop :=
  (∀ path, path ≠ output → files σ' !! path = files σ !! path)
  ∧ (∀ content, files σ !! output = Some content →
       ∃ more, files σ' !! output = Some (String.append content more))
  ∧ ∃ m, stdout σ' = stdout σ ++ [m].


(** The only length constraint is the exact length. *)
Definition exactly (L : Z) : lengths :=
  {| max_length := None; exact_length := Some L; min_length := None |}.

(** A character is its own lower case or its own upper case. *)
Definition own_case (c : char) : bool :=
  bool_decide ([c] = lower c) || bool_decide ([c] = upper c).

(** Apart from the micro sign and y with diaeresis, both cases of a
    character are latin-1. *)
Definition cases_latin1 (c : char) : bool :=
  (c =? 181) || (c =? 255)
  || (forallb (fun x => x <? 256) (lower c)
      && forallb (fun x => x <? 256) (upper c)).

(** A replacement of the table: one latin-1 character, not the letter. *)
Definition plain_replacement (char : char) (sub : str) : bool :=
  match sub with
  | [x] => negb (x =? char) && (x <? 256)
  | _ => false
  end.

(** The two cases of a character are the same string or start with
    different characters. *)
Definition cases_apart (c : char) : bool :=
  bool_decide (lower c = upper c)
  || match lower c, upper c with
     | x :: _, y :: _ => negb (x =? y)
     | _, _ => false
     end.

(** The source is read and holds these lines; the output can be opened. *)
Definition source_of (lines : list string) : os :=
  {| read_lines := fun _ => inr lines;
     append_raises := fun _ => None |}.

(** The outcome of a run that appends [bytes] to the output and prints
    [m]. *)
Definition appended (output bytes : string) (m : message) (σ : state)
    : (exception + unit) * state :=
  (inr (),
   {| files :=
        <[output := String.append (default EmptyString (files σ !! output))
                      bytes]> (files σ);
      stdout := stdout σ ++ [m] |}).

(** The outcome of a run that fails on encoding: the output has been
    opened, nothing is appended, the error is printed. *)
Definition not_encoded (output : string) (σ : state)
    : (exception + unit) * state :=
  (inr (),
   {| files := <[output := default EmptyString (files σ !! output)]> (files σ);
      stdout := stdout σ ++ [ErrorOccurred UnicodeEncodeError] |}).

(** The lines that iterating over a text file yields, with universal
    newlines: a line ends at a line feed, at a carriage return or at the
    two together, each read as one line feed; the last line may end with
    the file. *)
Fixpoint file_lines (content : string) : list string :=
  match content with
  | EmptyString => []
  | String c rest =>
      if Ascii.eqb c "010" then line_feed :: file_lines rest
      else if Ascii.eqb c "013" then
        match rest with
        | String c' rest' =>
            if Ascii.eqb c' "010" then line_feed :: file_lines rest'
            else line_feed :: file_lines rest
        | EmptyString => [line_feed]
        end
      else
        match file_lines rest with
        | line :: lines => String c line :: lines
        | [] => [String c EmptyString]
        end
  end.

Close Scope N_scope.

Set Warnings "-clear-no-such-hyp".

#[global] Instance length_ok_dec a n : Decision (length_ok a n).
Proof.
  unfold length_ok.
  destruct (max_length a), (exact_length a), (min_length a); apply _.
Defined.

#[global] Instance kept_dec a blacklist word : Decision (kept a blacklist word).
Proof. unfold kept. apply _. Defined.

(** * Properties *)

(** ** The blacklist *)

Lemma blacklist_update_resolve blacklist segment :
  blacklist_update blacklist segment =
  match segment with
  | [] => blacklist
  | _ => blacklist ∪ resolve_segment segment
  end.
Proof.
  destruct segment as [|c segment]; [done|].
  unfold blacklist_update, resolve_segment.
  change (lit "?" ++ c :: segment) with (qmark :: c :: segment).
  by destruct (dict_get _ _).
Qed.

Lemma fold_blacklist_update segments blacklist :
  fold_left blacklist_update segments blacklist =
  blacklist ∪ ⋃ (resolve_segment <$> filter (fun segment => segment ≠ []) segments).
Proof.
  revert blacklist.
  induction segments as [|segment segments IH]; intros blacklist; simpl.
  - set_solver.
  - rewrite IH, blacklist_update_resolve.
    destruct segment as [|c segment].
    + by rewrite filter_cons_False by naive_solver.
    + rewrite filter_cons_True by done. simpl. set_solver.
Qed.

(** C7: the blacklist of a specification string is the union, over the
    non-empty segments between the markers ['?'], of what each segment
    resolves to once the marker is put back: the named table if there is
    one, the characters of the segment otherwise.  The function is total:
    no specification string raises an error. *)
Theorem C7_blacklist_is_union_of_segments (conditions : str) :
  build_blacklist conditions = resolved_blacklist conditions
  ∧ (∀ segment,
        dict_get predefined_blacklists (qmark :: segment) = None →
        resolve_segment segment = list_to_set segment)
  ∧ (∀ segment table,
        dict_get predefined_blacklists (qmark :: segment) = Some table →
        resolve_segment segment = list_to_set table).
Proof.
  split; [|split].
  - unfold build_blacklist, resolved_blacklist.
    destruct conditions as [|c conditions].
    + reflexivity.
    + rewrite fold_blacklist_update. set_solver.
  - intros segment Hnone. unfold resolve_segment. by rewrite Hnone.
  - intros segment table Hsome. unfold resolve_segment. by rewrite Hsome.
Qed.

Lemma C7_witness :
  build_blacklist (lit "?x?d") = resolved_blacklist (lit "?x?d")
  ∧ resolve_segment (lit "x") = list_to_set (lit "x")
  ∧ resolve_segment (lit "d") = list_to_set (lit "0123456789").
Proof.
  destruct (C7_blacklist_is_union_of_segments (lit "?x?d")) as (H1 & H2 & H3).
  split; [exact H1|]. split.
  - apply H2. reflexivity.
  - apply H3. reflexivity.
Defined.

(** ** The filter *)

Lemma length_rejected_ok a n :
  length_rejected a n = false ↔ length_ok a n.
Proof.
  unfold length_rejected, length_ok.
  destruct (max_length a), (exact_length a), (min_length a);
    rewrite ?orb_false_iff, ?negb_false_iff, ?Z.gtb_ltb, ?Z.ltb_ge, ?Z.eqb_eq;
    intuition (try lia; try done).
Qed.

Lemma blacklisted_clean blacklist word :
  blacklisted blacklist word = false ↔ Forall (fun c => c ∉ blacklist) word.
Proof.
  unfold blacklisted. rewrite andb_false_iff, negb_false_iff, bool_decide_eq_true.
  split.
  - intros [-> | Hnone]; [apply Forall_forall; set_solver|].
    apply Forall_forall. intros c Hc Hin.
    assert (existsb (fun c => bool_decide (c ∈ blacklist)) word = true) as Hex.
    { apply existsb_exists. exists c. split; [by apply list_elem_of_In|].
      by apply bool_decide_eq_true. }
    congruence.
  - intros Hall. right. apply not_true_iff_false. intros Hex.
    apply existsb_exists in Hex as (c & Hc & Hin).
    apply bool_decide_eq_true in Hin. apply list_elem_of_In in Hc.
    rewrite Forall_forall in Hall. by apply (Hall c).
Qed.

Lemma extract_line_kept a blacklist filtered_words line :
  extract_line a blacklist filtered_words line =
  filtered_words ++ filter (kept a blacklist) [word_of line].
Proof.
  unfold extract_line. fold (word_of line).
  destruct (length_rejected a _) eqn:Hlen.
  - rewrite filter_cons_False, filter_nil, app_nil_r; [done|].
    intros [Hok _]. apply length_rejected_ok in Hok. congruence.
  - apply length_rejected_ok in Hlen.
    destruct (blacklisted blacklist _) eqn:Hbl.
    + rewrite filter_cons_False, filter_nil, app_nil_r; [done|].
      intros [_ Hclean]. apply blacklisted_clean in Hclean. congruence.
    + apply blacklisted_clean in Hbl. by rewrite filter_cons_True.
Qed.

Lemma extract_loop_filter a blacklist lines filtered_words :
  fold_left (extract_line a blacklist) lines filtered_words =
  filtered_words ++ filter (kept a blacklist) (word_of <$> lines).
Proof.
  revert filtered_words.
  induction lines as [|line lines IH]; intros filtered_words.
  - by rewrite fmap_nil, filter_nil, app_nil_r.
  - cbn [fold_left].
    rewrite IH, extract_line_kept, fmap_cons, <- app_assoc. f_equal.
    rewrite !filter_cons, filter_nil. by destruct (decide _).
Qed.



Lemma elem_of_extract_lines a conditions lines word :
  word ∈ extract_lines a conditions lines
  ↔ word ∈ (word_of <$> lines) ∧ kept a (build_blacklist conditions) word.
Proof.
  unfold extract_lines, extract_lines_with.
  rewrite extract_loop_filter, app_nil_l, list_elem_of_filter. tauto.
Qed.








(** ** Padding *)

Lemma fold_left_snoc {A B} (f : A → B) (l : list A) (acc : list B) :
  fold_left (fun acc x => acc ++ [f x]) l acc = acc ++ (f <$> l).
Proof.
  revert acc. induction l as [|x l IH]; intros acc; simpl.
  - by rewrite app_nil_r.
  - by rewrite IH, <- app_assoc.
Qed.

Lemma flat_map_bind {A B} (f : A → list B) (l : list A) :
  flat_map f l = l ≫= f.
Proof. induction l as [|x l IH]; csimpl; [done|]. by rewrite IH. Qed.

Lemma product_snoc {A} (pools : list (list A)) (pool : list A) :
  product (pools ++ [pool]) =
  product pools ≫= (fun x => (fun y => x ++ [y]) <$> pool).
Proof. unfold product. by rewrite fold_left_app, <- flat_map_bind. Qed.

Lemma paddings_0 charset : paddings charset 0 = [[]].
Proof. reflexivity. Qed.

Lemma paddings_S charset k :
  paddings charset (S k) =
  paddings charset k ≫= (fun p => (fun c => p ++ [c]) <$> charset).
Proof.
  unfold paddings.
  change (repeat (chars charset) (S k))
    with (chars charset :: repeat (chars charset) k).
  rewrite repeat_cons, product_snoc.
  generalize (product (repeat (chars charset) k)). intros tuples.
  induction tuples as [|t tuples IH]; csimpl; [done|].
  rewrite fmap_app, IH. f_equal.
  unfold chars, concat_str. rewrite <- !list_fmap_compose.
  apply list_fmap_ext. intros _ c _. simpl.
  by rewrite concat_app, concat_cons, concat_nil, app_nil_r.
Qed.

Lemma length_bind_uniform {A B} (f : A → list B) (l : list A) n :
  (∀ x, length (f x) = n) → length (l ≫= f) = length l * n.
Proof.
  intros Hf. induction l as [|x l IH]; csimpl; [done|].
  rewrite length_app, IH, Hf. lia.
Qed.

Lemma lookup_bind_uniform {A B} (f : A → list B) (l : list A) n q r x :
  (∀ x, length (f x) = n) → l !! q = Some x → r < n →
  (l ≫= f) !! (q * n + r) = f x !! r.
Proof.
  intros Hf. revert q.
  induction l as [|a l IH]; intros q Hq Hr; [done|]. csimpl.
  destruct q as [|q]; simpl in *.
  - injection Hq as ->. apply lookup_app_l. by rewrite Hf.
  - rewrite lookup_app_r by (rewrite Hf; lia).
    rewrite Hf. rewrite <- (IH q Hq Hr). f_equal. lia.
Qed.

Lemma length_paddings charset k :
  length (paddings charset k) = length charset ^ k.
Proof.
  induction k as [|k IH]; [done|].
  rewrite paddings_S, (length_bind_uniform _ _ (length charset)).
  - rewrite IH. simpl. lia.
  - intros p. by rewrite length_fmap.
Qed.

Lemma paddings_length charset k p :
  p ∈ paddings charset k → length p = k.
Proof.
  revert p. induction k as [|k IH]; intros p.
  - rewrite paddings_0. by intros ->%list_elem_of_singleton.
  - rewrite paddings_S. intros (p' & Hp & Hp')%list_elem_of_bind.
    apply list_elem_of_fmap in Hp as (c & -> & _).
    rewrite length_app, (IH p' Hp'). simpl. lia.
Qed.

Lemma NoDup_paddings charset k :
  NoDup charset → NoDup (paddings charset k).
Proof.
  intros Hnodup. induction k as [|k IH].
  - rewrite paddings_0. apply NoDup_singleton.
  - rewrite paddings_S. apply NoDup_bind; [| |done].
    + intros p1 p2 s _ _ (c1 & -> & _)%list_elem_of_fmap
        (c2 & Heq & _)%list_elem_of_fmap.
      by apply app_inj_tail in Heq as [? _].
    + intros p _. apply NoDup_fmap_2; [|done].
      intros c1 c2 Heq. by apply app_inj_tail in Heq as [_ ?].
Qed.

(** The padding number [i] has at position [j] the character of the
    charset whose index is digit [j] of [i] written in base [length
    charset] with [k] digits: the last position changes at every step. *)
Lemma lookup_paddings charset k i :
  i < length charset ^ k →
  ∃ padding,
    paddings charset k !! i = Some padding
    ∧ length padding = k
    ∧ ∀ j, j < k →
        padding !! j =
        charset !! ((i / length charset ^ (k - 1 - j)) `mod` length charset).
Proof.
  set (n := length charset).
  revert i. induction k as [|k IH]; intros i Hi.
  - exists []. simpl in Hi. replace i with 0 by lia.
    split; [done|]. split; [done|]. intros j Hj. lia.
  - assert (0 < n) as Hn.
    { destruct n; [|lia]. simpl in Hi. lia. }
    assert (i / n < n ^ k) as Hq.
    { apply Nat.Div0.div_lt_upper_bound. by rewrite Nat.pow_succ_r' in Hi. }
    assert (i `mod` n < n) as Hr by (apply Nat.mod_upper_bound; lia).
    destruct (IH _ Hq) as (p & Hp & Hlen & Hdigits).
    destruct (lookup_lt_is_Some_2 charset (i `mod` n) Hr) as [c Hc].
    exists (p ++ [c]). split; [|split].
    + rewrite paddings_S.
      rewrite (Nat.div_mod_eq i n) at 1.
      rewrite (Nat.mul_comm n).
      erewrite (lookup_bind_uniform _ _ n); [| |done|done].
      * by rewrite list_lookup_fmap, Hc.
      * intros p'. by rewrite length_fmap.
    + rewrite length_app, Hlen. simpl. lia.
    + intros j Hj. destruct (decide (j = k)) as [->|Hne].
      * rewrite lookup_app_r, Hlen, Nat.sub_diag by lia.
        replace (S k - 1 - k) with 0 by lia.
        by rewrite Nat.pow_0_r, Nat.div_1_r.
      * rewrite lookup_app_l by lia. rewrite Hdigits by lia.
        replace (S k - 1 - j) with (S (k - 1 - j)) by lia.
        by rewrite Nat.pow_succ_r', Nat.Div0.div_div.
Qed.

Lemma pad_word_equal L charset prepend generated_words word :
  Z.of_nat (length word) = L →
  pad_word L charset prepend generated_words word = generated_words ++ [word].
Proof. intros <-. unfold pad_word. by rewrite Z.eqb_refl. Qed.

Lemma pad_word_longer L charset prepend generated_words word :
  (L < Z.of_nat (length word))%Z →
  pad_word L charset prepend generated_words word = generated_words.
Proof.
  intros Hlt. unfold pad_word.
  destruct (Z.eqb_spec (Z.of_nat (length word)) L); [lia|].
  destruct (Z.ltb_spec (Z.of_nat (length word)) L); [lia|done].
Qed.

Lemma pad_word_shorter L charset prepend generated_words word :
  (Z.of_nat (length word) < L)%Z →
  pad_word L charset prepend generated_words word =
  generated_words
  ++ (padded prepend word
        <$> paddings charset (Z.to_nat (L - Z.of_nat (length word)))).
Proof.
  intros Hlt. unfold pad_word.
  destruct (Z.eqb_spec (Z.of_nat (length word)) L); [lia|].
  destruct (Z.ltb_spec (Z.of_nat (length word)) L); [|lia].
  cbv zeta.
  rewrite (fold_left_snoc
    (fun padding => if prepend then concat_str padding ++ word
                    else word ++ concat_str padding)).
  f_equal. unfold paddings. rewrite <- list_fmap_compose.
  apply list_fmap_ext. intros _ t _. by destruct prepend.
Qed.

(** What padding makes of a word shorter than the target length: the count,
    the lengths, the word at the start or at the end, and the order of the
    paddings, the last position changing at every step. *)
Lemma pad_shorter_emitted (L : Z) (charset : str) (prepend : bool)
    (generated_words : list str) (W : str) :
  (Z.of_nat (length W) < L)%Z →
  let C := parse_charset charset in
  let k := Z.to_nat (L - Z.of_nat (length W)) in
  ∃ emitted : list str,
    pad_word L C prepend generated_words W = generated_words ++ emitted
    ∧ length emitted = length C ^ k
    ∧ (NoDup C → NoDup emitted)
    ∧ Forall (fun s => Z.of_nat (length s) = L
                       ∧ if prepend then W `suffix_of` s else W `prefix_of` s)
        emitted
    ∧ ∀ i, i < length C ^ k →
        ∃ padding,
          emitted !! i = Some (padded prepend W padding)
          ∧ length padding = k
          ∧ ∀ j, j < k →
              padding !! j = C !! ((i / length C ^ (k - 1 - j)) `mod` length C).
Proof.
  intros Hlt C k.
  exists (padded prepend W <$> paddings C k).
  split; [by apply pad_word_shorter|].
  split; [by rewrite length_fmap, length_paddings|].
  split; [|split].
  - intros Hnodup. apply NoDup_fmap_2; [|by apply NoDup_paddings].
    intros p1 p2. unfold padded. destruct prepend; intros Heq.
    + by apply app_inv_tail in Heq.
    + by apply app_inv_head in Heq.
  - apply Forall_forall. intros s (p & -> & Hp)%list_elem_of_fmap.
    apply paddings_length in Hp. unfold padded.
    destruct prepend; rewrite length_app, Hp.
    + split; [lia|]. by exists p.
    + split; [lia|]. by exists p.
  - intros i Hi. destruct (lookup_paddings C k i Hi) as (p & Hp & Hlen & Hj).
    exists p. by rewrite list_lookup_fmap, Hp.
Qed.

(** ** Case variants *)

Lemma elem_of_product {A} (pools : list (list A)) (t : list A) :
  t ∈ product pools ↔ Forall2 (fun y pool => y ∈ pool) t pools.
Proof.
  revert t. induction pools as [|pool pools IH] using rev_ind; intros t.
  - change (product []) with [@nil A]. rewrite list_elem_of_singleton.
    split; [by intros ->|by intros ->%Forall2_nil_inv_r].
  - rewrite product_snoc, list_elem_of_bind. split.
    + intros (x & (y & -> & Hy)%list_elem_of_fmap & Hx%IH).
      apply Forall2_app; [done|]. by repeat constructor.
    + intros (x & ys & Hx & Hys & ->)%Forall2_app_inv_r.
      apply Forall2_cons_inv_r in Hys as (y & ys' & Hy & ->%Forall2_nil_inv_r & ->).
      exists x. split; [|by apply IH].
      apply list_elem_of_fmap. by exists y.
Qed.

Lemma length_product_pairs {A} (pools : list (list A)) :
  Forall (fun pool => length pool = 2) pools →
  length (product pools) = 2 ^ length pools.
Proof.
  induction pools as [|pool pools IH] using rev_ind; intros Hall; [done|].
  apply Forall_app in Hall as [Hpools [Hpool _]%Forall_cons].
  rewrite product_snoc, (length_bind_uniform _ _ 2).
  - rewrite IH, length_app by done. simpl.
    rewrite Nat.add_1_r, Nat.pow_succ_r'. lia.
  - intros x. by rewrite length_fmap.
Qed.

Lemma size_list_to_set_le `{Countable A} (l : list A) :
  size (list_to_set l : gset A) ≤ length l.
Proof.
  apply submseteq_length, NoDup_submseteq; [apply NoDup_elements|].
  intros x Hx. apply elem_of_elements in Hx. by apply elem_of_list_to_set in Hx.
Qed.

(** The tuples of the product are the choices of a case at each position. *)
Lemma case_tuples_choices (word : str) (t : list str) :
  Forall2 (fun y pool => y ∈ pool) t
    ((fun char => [lower char; upper char]) <$> word)
  ↔ ∃ choices : list bool,
      length choices = length word
      ∧ t = zip_with (fun (up : bool) c => if up then upper c else lower c)
              choices word.
Proof.
  rewrite Forall2_fmap_r. split.
  - induction 1 as [|y c t word Hy _ (choices & Hlen & ->)].
    + by exists [].
    + apply elem_of_cons in Hy as [->|Hy].
      * exists (false :: choices). simpl. by rewrite Hlen.
      * apply list_elem_of_singleton in Hy as ->.
        exists (true :: choices). simpl. by rewrite Hlen.
  - intros (choices & Hlen & ->). revert choices Hlen.
    induction word as [|c word IH]; intros [|up choices] Hlen;
      simplify_eq/=; constructor; [|by apply IH].
    destruct up; set_solver.
Qed.

Lemma elem_of_case_combos (word s : str) :
  s ∈ case_combos word
  ↔ ∃ choices : list bool,
      length choices = length word ∧ s = case_choice choices word.
Proof.
  unfold case_combos, case_choice, concat_str.
  rewrite elem_of_list_to_set, list_elem_of_fmap. split.
  - intros (t & -> & Ht). apply elem_of_product, case_tuples_choices in Ht
      as (choices & Hlen & ->). by exists choices.
  - intros (choices & Hlen & ->). eexists. split; [done|].
    apply elem_of_product, case_tuples_choices. by exists choices.
Qed.

Lemma size_case_combos (word : str) :
  size (case_combos word) ≤ 2 ^ length word.
Proof.
  unfold case_combos. etrans; [apply size_list_to_set_le|].
  rewrite length_fmap, length_product_pairs, length_fmap; [done|].
  apply Forall_fmap, Forall_forall. by intros c _.
Qed.

(** A word of the source has its characters below U+0100. *)
Lemma decode_latin1_bounded (s : string) :
  Forall (fun c => (c < 256)%N) (decode_latin1 s).
Proof.
  unfold decode_latin1. apply Forall_fmap, Forall_forall.
  intros a _. apply N_ascii_bounded.
Qed.

Lemma Forall_lstrip (P : char → Prop) (s : str) :
  Forall P s → Forall P (lstrip s).
Proof.
  induction 1 as [|c s Hc Hs IH]; simpl; [done|].
  destruct (isspace c); [done|by constructor].
Qed.

Lemma Forall_strip (P : char → Prop) (s : str) :
  Forall P s → Forall P (strip s).
Proof.
  intros Hs. unfold strip, rstrip.
  apply Forall_rev, Forall_lstrip, Forall_rev, Forall_lstrip, Hs.
Qed.

Lemma word_of_bounded (line : string) :
  Forall (fun c => (c < 256)%N) (word_of line).
Proof. apply Forall_strip, decode_latin1_bounded. Qed.

(** Checked on each of the 256 characters of latin-1. *)
Lemma folds_alike_latin1 (c : char) :
  (c < 256)%N → folds_alike c = true.
Proof.
  intros Hc.
  assert (forallb folds_alike (N.of_nat <$> seq 0 256) = true) as Hall
    by (vm_compute; reflexivity).
  rewrite forallb_forall in Hall. apply Hall.
  apply list_elem_of_In, list_elem_of_fmap. exists (N.to_nat c).
  split; [by rewrite N2Nat.id|].
  apply list_elem_of_In, in_seq. lia.
Qed.

Lemma casefold_app (s1 s2 : str) :
  casefold (s1 ++ s2) = casefold s1 ++ casefold s2.
Proof. apply flat_map_app. Qed.

Lemma casefold_case_choice (choices : list bool) (word : str) :
  Forall (fun c => (c < 256)%N) word →
  length choices = length word →
  casefold (case_choice choices word) = casefold word.
Proof.
  intros Hword. revert choices.
  induction Hword as [|c word Hc _ IH]; intros [|up choices] Hlen;
    simplify_eq/=; [done|].
  unfold case_choice in *. simpl. rewrite casefold_app, IH by done.
  f_equal. pose proof (folds_alike_latin1 c Hc) as Hfold.
  apply andb_true_iff in Hfold as [Hlow Hup].
  apply bool_decide_eq_true in Hlow, Hup. by destruct up.
Qed.

Lemma length_lower (c : char) : length (lower c) = 1.
Proof. unfold lower. by repeat case_match. Qed.

Lemma length_upper (c : char) : c ≠ 223%N → length (upper c) = 1.
Proof.
  intros Hc. unfold upper.
  destruct (N.eqb_spec c 223) as [->|_]; [done|]. by repeat case_match.
Qed.

Lemma length_upper_bounds (c : char) : 1 ≤ length (upper c) ≤ 2.
Proof. unfold upper. repeat case_match; simpl; lia. Qed.

Lemma length_case_choice_bounds (choices : list bool) (word : str) :
  length choices = length word →
  length word ≤ length (case_choice choices word) ≤ 2 * length word.
Proof.
  revert choices. induction word as [|c word IH]; intros [|up choices] Hlen;
    simplify_eq/=; [lia|].
  unfold case_choice in *. simpl. rewrite length_app.
  specialize (IH choices Hlen).
  pose proof (length_upper_bounds c). pose proof (length_lower c).
  destruct up; lia.
Qed.

Lemma length_case_choice (choices : list bool) (word : str) :
  223%N ∉ word →
  length choices = length word →
  length (case_choice choices word) = length word.
Proof.
  revert choices. induction word as [|c word IH]; intros [|up choices] Hnot Hlen;
    simplify_eq/=; [done|].
  apply not_elem_of_cons in Hnot as [Hc Hword].
  unfold case_choice in *. simpl. rewrite length_app, (IH choices) by done.
  destruct up; [by rewrite length_upper|by rewrite length_lower].
Qed.

(** The case variants of one word: the choices of a case at each
    position, their number, their folding and their lengths. *)
Lemma case_variants_of_word (line : string) :
  let W := word_of line in
  (∀ generated_words,
      combinatory_word false generated_words W
      = generated_words ++ elements (case_combos W))
  ∧ (∀ s, s ∈ case_combos W
          ↔ ∃ choices : list bool,
              length choices = length W ∧ s = case_choice choices W)
  ∧ size (case_combos W) ≤ 2 ^ length W
  ∧ (∀ s, s ∈ case_combos W →
          casefold s = casefold W
          ∧ length W ≤ length s ≤ 2 * length W
          ∧ (223%N ∉ W → length s = length W))
  ∧ case_combos (word_of "go") = {[ lit "go"; lit "gO"; lit "Go"; lit "GO" ]}.
Proof.
  intros W. split; [done|]. split; [apply elem_of_case_combos|].
  split; [apply size_case_combos|]. split; [|reflexivity].
  intros s (choices & Hlen & ->)%elem_of_case_combos.
  split; [|split].
  - apply casefold_case_choice; [apply word_of_bounded|done].
  - by apply length_case_choice_bounds.
  - intros Hnot. by apply length_case_choice.
Qed.

(** ** Substitutions *)

Lemma fold_add_replacements (combo : str) (char : char) (subs : list str)
    (acc : gset str) :
  fold_left (fun acc sub => acc ∪ {[ replace combo char sub ]}) subs acc
  = acc ∪ list_to_set (replace combo char <$> subs).
Proof.
  revert acc. induction subs as [|sub subs IH]; intros acc; simpl.
  - set_solver.
  - rewrite IH. set_solver.
Qed.

Lemma fold_substitutions (combo : str) (table : list (char * list str))
    (acc : gset str) :
  fold_left
    (fun acc '(char, subs) =>
       if contains combo char then
         fold_left (fun acc sub => acc ∪ {[ replace combo char sub ]}) subs acc
       else acc)
    table acc
  = acc ∪ list_to_set
            (flat_map
               (fun '(char, subs) =>
                  if contains combo char then replace combo char <$> subs
                  else [])
               table).
Proof.
  revert acc. induction table as [|[char subs] table IH]; intros acc; simpl.
  - set_solver.
  - rewrite IH, list_to_set_app_L.
    destruct (contains combo char).
    + rewrite fold_add_replacements. set_solver.
    + set_solver.
Qed.

(** What extended mode adds for a case variant: its characters, each as a
    string of its own, and its single substitutions. *)
Lemma substitutions_combos_split (combo : str) :
  substitutions_combos combo
  = list_to_set (chars combo) ∪ list_to_set (single_substitutions combo).
Proof. apply fold_substitutions. Qed.

(** C2 at the source word ["go"] in extended mode: besides the three single
    substitutions ["6o"], ["9o"] and ["g0"], the variant ["go"] adds the
    strings ["g"] and ["o"], its characters, which no substitution gives;
    so does every variant, whatever the word. *)
Theorem C2_extended_adds_characters :
  substitutions_combos (lit "go")
  = {[ lit "g"; lit "o"; lit "6o"; lit "9o"; lit "g0" ]}
  ∧ single_substitutions (lit "go") = [lit "6o"; lit "9o"; lit "g0"]
  ∧ (list_to_set (combinatory_lines true ["go"]%string) : gset str)
    = {[ lit "go"; lit "gO"; lit "Go"; lit "GO";
         lit "6o"; lit "9o"; lit "g0"; lit "6O"; lit "9O"; lit "G0";
         lit "g"; lit "o"; lit "G"; lit "O" ]}
  ∧ ∀ combo,
      substitutions_combos combo
      = list_to_set (chars combo) ∪ list_to_set (single_substitutions combo).
Proof.
  split; [reflexivity|]. split; [reflexivity|]. split; [reflexivity|].
  apply substitutions_combos_split.
Qed.

(** ** Files and messages *)

Section Runs.

Variable sys : os.

(** A command hands every exception to [report], which prints. *)
Lemma try_report_returns (body : M unit) (file : string) (σ : state) :
  (try_except body (report file) σ).1 = inr ().
Proof.
  unfold try_except. destruct (body σ) as [[e|[]] σ']; [|done].
  by destruct e.
Qed.

Lemma extractWords_returns file a conditions output σ :
  (extractWords sys file a conditions output σ).1 = inr ().
Proof. apply try_report_returns. Qed.

Lemma generateDictionary_returns file L charset output prepend σ :
  (generateDictionary sys file L charset output prepend σ).1 = inr ().
Proof. apply try_report_returns. Qed.

Lemma generateCombinatory_returns file output extended σ :
  (generateCombinatory sys file output extended σ).1 = inr ().
Proof. apply try_report_returns. Qed.

(** When the source cannot be read, the exception is reported and nothing
    else happens. *)
Lemma read_fails_run (file : string) (e : exception) (k : list string → M unit)
    (σ : state) :
  read_lines sys file = inl e →
  try_except (open_read sys file ≫= k) (report file) σ = report file e σ.
Proof.
  intros Hread. unfold try_except, mbind, M_bind, open_read. by rewrite Hread.
Qed.

(** When the source is read and the words are encoded and appended, the
    output grows by the encoded text and the command says so. *)
Lemma save_run (file output what : string) (lines : list string)
    (words : list string → list str) (bytes : string) (σ : state) :
  read_lines sys file = inr lines →
  append_raises sys output = None →
  encode_latin1 (join newline (words lines) ++ newline) = inr bytes →
  try_except
    (open_read sys file ≫= fun lines =>
       save sys output (words lines) ≫= fun _ => print (SavedTo what output))
    (report file) σ
  = (inr (),
     {| files :=
          <[output := String.append (default EmptyString (files σ !! output)) bytes]>
            (files σ);
        stdout := stdout σ ++ [SavedTo what output] |}).
Proof.
  intros Hread Happend Hencode.
  unfold try_except, mbind, M_bind, open_read, save, append_text.
  by rewrite Hread, Happend, Hencode.
Qed.

(** When opening the output raises, the exception is reported and the
    files are as they were. *)
Lemma append_fails_run (file output what : string) (lines : list string)
    (words : list string → list str) (e : exception) (σ : state) :
  read_lines sys file = inr lines →
  append_raises sys output = Some e →
  try_except
    (open_read sys file ≫= fun lines =>
       save sys output (words lines) ≫= fun _ => print (SavedTo what output))
    (report file) σ
  = report file e σ.
Proof.
  intros Hread Happend.
  unfold try_except, mbind, M_bind, open_read, save, append_text.
  by rewrite Hread, Happend.
Qed.

End Runs.

Lemma report_prints (file : string) (e : exception) (σ : state) :
  report file e σ
  = (inr (),
     {| files := files σ;
        stdout := stdout σ ++ [match e with
                               | FileNotFoundError => NotFound file
                               | _ => ErrorOccurred e
                               end] |}).
Proof. by destruct e. Qed.

(** C9: when opening the source raises [FileNotFoundError], each of the
    three commands leaves every file as it was, the output neither created
    nor written, and prints that the source was not found. *)
Theorem C9_missing_source_leaves_output (sys : os) (file output : string)
    (a : lengths) (conditions : str) (L : Z) (charset : str)
    (prepend extended : bool) (σ : state) :
  read_lines sys file = inl FileNotFoundError →
  let unchanged :=
    (inr (), {| files := files σ; stdout := stdout σ ++ [NotFound file] |}) in
  extractWords sys file a conditions output σ = unchanged
  ∧ generateDictionary sys file L charset output prepend σ = unchanged
  ∧ generateCombinatory sys file output extended σ = unchanged.
Proof.
  intros Hread unchanged. unfold unchanged.
  rewrite <- (report_prints file FileNotFoundError σ).
  split; [|split]; by apply read_fails_run.
Qed.

Lemma C9_witness :
  extractWords source_missing "words.txt" any_length [] "out.txt" one_word_written
    = (inr (), {| files := files one_word_written;
                  stdout := [NotFound "words.txt"] |})
  ∧ generateDictionary source_missing "words.txt" 3 (lit "?d") "out.txt" false
      one_word_written
    = (inr (), {| files := files one_word_written;
                  stdout := [NotFound "words.txt"] |})
  ∧ generateCombinatory source_missing "words.txt" "out.txt" true one_word_written
    = (inr (), {| files := files one_word_written;
                  stdout := [NotFound "words.txt"] |}).
Proof.
  apply (C9_missing_source_leaves_output source_missing "words.txt" "out.txt"
           any_length [] 3 (lit "?d") false true one_word_written).
  reflexivity.
Defined.

(** C10: when the source is read, no word results and the output can be
    appended to, each of the three commands appends one line feed to the
    output, whatever it held, and nothing else. *)
Theorem C10_no_words_one_newline (sys : os) (file output : string)
    (a : lengths) (conditions : str) (L : Z) (charset : str)
    (prepend extended : bool) (lines : list string) (σ : state) :
  read_lines sys file = inr lines →
  append_raises sys output = None →
  let one_more_line :=
    <[output := String.append (default EmptyString (files σ !! output)) line_feed]>
      (files σ) in
  (extract_lines a conditions lines = [] →
     files (extractWords sys file a conditions output σ).2 = one_more_line)
  ∧ (pad_lines L (parse_charset charset) prepend lines = [] →
     files (generateDictionary sys file L charset output prepend σ).2
     = one_more_line)
  ∧ (combinatory_lines extended lines = [] →
     files (generateCombinatory sys file output extended σ).2 = one_more_line).
Proof.
  intros Hread Happend one_more_line. unfold one_more_line.
  split; [|split]; intros Hnone.
  - unfold extractWords.
    erewrite (save_run sys file output _ lines
                (extract_lines_with a (build_blacklist conditions))); [done..|].
    fold (extract_lines a conditions lines). by rewrite Hnone.
  - unfold generateDictionary.
    erewrite (save_run sys file output _ lines
                (pad_lines L (parse_charset charset) prepend)); [done..|].
    by rewrite Hnone.
  - unfold generateCombinatory.
    erewrite (save_run sys file output _ lines
                (fun lines => elements (list_to_set (combinatory_lines extended lines)
                                          : gset str))); [done..|].
    by rewrite Hnone.
Qed.

Lemma C10_witness :
  files (extractWords source_empty "words.txt" any_length [] "out.txt"
           one_word_written).2
    = {[ "out.txt"%string := String.append "word" line_feed ]}
  ∧ files (generateDictionary source_empty "words.txt" 3 (lit "?d") "out.txt" false
             one_word_written).2
    = {[ "out.txt"%string := String.append "word" line_feed ]}
  ∧ files (generateCombinatory source_empty "words.txt" "out.txt" true
             one_word_written).2
    = {[ "out.txt"%string := String.append "word" line_feed ]}.
Proof.
  destruct (C10_no_words_one_newline source_empty "words.txt" "out.txt"
              any_length [] 3 (lit "?d") false true [] one_word_written
              eq_refl eq_refl) as (H1 & H2 & H3).
  split; [|split].
  - rewrite (H1 eq_refl). reflexivity.
  - rewrite (H2 eq_refl). reflexivity.
  - rewrite (H3 eq_refl). reflexivity.
Defined.

(** C8 where the directory of the output is missing: the source is read,
    opening the output raises [FileNotFoundError], and each command prints
    that the source was not found, not the message of the other failures.
    No exception leaves a command. *)
Theorem C8_missing_output_directory :
  extractWords output_directory_missing "words.txt" any_length []
    "missing/out.txt" nothing_written
    = (inr (), {| files := ∅; stdout := [NotFound "words.txt"] |})
  ∧ generateDictionary output_directory_missing "words.txt" 3 (lit "?d")
      "missing/out.txt" false nothing_written
    = (inr (), {| files := ∅; stdout := [NotFound "words.txt"] |})
  ∧ generateCombinatory output_directory_missing "words.txt"
      "missing/out.txt" false nothing_written
    = (inr (), {| files := ∅; stdout := [NotFound "words.txt"] |}).
Proof. repeat split. Qed.

(** * Further properties *)

(** ** The blacklist, continued *)

Lemma split_nonempty (sep : char) (s : str) : split sep s ≠ [].
Proof.
  destruct s as [|c s]; simpl; [done|].
  destruct (c =? sep)%N; [done|]. by destruct (split sep s).
Qed.

Lemma split_app_sep (sep : char) (s1 s2 : str) :
  split sep (s1 ++ sep :: s2) = split sep s1 ++ split sep s2.
Proof.
  induction s1 as [|c s1 IH]; simpl.
  - by rewrite N.eqb_refl.
  - destruct (c =? sep)%N; [by rewrite IH|].
    rewrite IH. pose proof (split_nonempty sep s1).
    by destruct (split sep s1).
Qed.

Lemma split_no_sep (sep : char) (s segment : str) :
  segment ∈ split sep s → sep ∉ segment.
Proof.
  revert segment. induction s as [|c s IH]; intros segment; simpl.
  - intros ->%list_elem_of_singleton. apply not_elem_of_nil.
  - destruct (N.eqb_spec c sep) as [->|Hne].
    + intros [->|Hin]%elem_of_cons; [apply not_elem_of_nil|by apply IH].
    + destruct (split sep s) as [|seg segs] eqn:Hsplit.
      * intros ->%list_elem_of_singleton.
        by intros ->%list_elem_of_singleton.
      * intros [->|Hin]%elem_of_cons.
        -- apply not_elem_of_cons. split; [done|].
           apply IH, list_elem_of_here.
        -- by apply IH, list_elem_of_further.
Qed.

Lemma build_blacklist_resolved (conditions : str) :
  build_blacklist conditions = resolved_blacklist conditions.
Proof.
  unfold build_blacklist, resolved_blacklist.
  destruct conditions as [|c conditions]; [reflexivity|].
  rewrite fold_blacklist_update. set_solver.
Qed.

Lemma build_blacklist_app (conditions1 conditions2 : str) :
  build_blacklist (conditions1 ++ qmark :: conditions2)
  = build_blacklist conditions1 ∪ build_blacklist conditions2.
Proof.
  rewrite !build_blacklist_resolved. unfold resolved_blacklist.
  rewrite split_app_sep, filter_app, fmap_app.
  apply leibniz_equiv, union_list_app.
Qed.

(** X1: the blacklist is cumulative: two specifications written one after
    the other with a marker between them give the union of their two
    blacklists. *)
Theorem X1_blacklist_of_joined_specifications (conditions1 conditions2 : str) :
  build_blacklist (conditions1 ++ lit "?" ++ conditions2)
  = build_blacklist conditions1 ∪ build_blacklist conditions2.
Proof. apply build_blacklist_app. Qed.

Lemma blacklist_table_segment (segment table : str) :
  dict_get predefined_blacklists (qmark :: segment) = Some table →
  (segment = lit "s" ∧ table = special_raw)
  ∨ (segment ≠ lit "s" ∧ qmark ∉ table).
Proof.
  unfold predefined_blacklists. simpl.
  repeat case_decide; intros; simplify_eq;
    match goal with H : lit _ = _ |- _ => cbv in H; simplify_eq end;
    try (left; split; reflexivity);
    right; (split; [done|]);
    intros Hin; apply (bool_decide_pack _) in Hin; by vm_compute in Hin.
Qed.

(** X2: a question mark written in the specification never blacklists the
    question mark: it is blacklisted exactly when the specification has the
    segment ["s"], which names the table of special characters. *)
Theorem X2_marker_blacklisted_only_by_special_table (conditions : str) :
  qmark ∈ build_blacklist conditions ↔ lit "s" ∈ split qmark conditions.
Proof.
  rewrite build_blacklist_resolved. unfold resolved_blacklist.
  rewrite elem_of_union_list. split.
  - intros (X & (segment & -> & [Hne Hin]%list_elem_of_filter)%list_elem_of_fmap
             & HX).
    pose proof (split_no_sep _ _ _ Hin) as Hnosep.
    unfold resolve_segment in HX.
    destruct (dict_get _ _) as [table|] eqn:Hget.
    + apply blacklist_table_segment in Hget as [[-> _]|[_ Hnot]]; [done|].
      by apply elem_of_list_to_set in HX.
    + by apply elem_of_list_to_set in HX.
  - intros Hin. exists (resolve_segment (lit "s")). split.
    + apply list_elem_of_fmap. exists (lit "s"). split; [done|].
      by apply list_elem_of_filter.
    + by vm_compute.
Qed.

Lemma kept_union a (blacklist1 blacklist2 : gset N) (word : str) :
  kept a (blacklist1 ∪ blacklist2) word
  ↔ Forall (fun c => c ∉ blacklist2) word ∧ kept a blacklist1 word.
Proof.
  unfold kept. rewrite !Forall_forall. set_solver.
Qed.

(** X3: adding a specification after a marker filters the result further:
    the words kept under the joined specification are the words kept under
    the first that have no character blacklisted by the second. *)
Theorem X3_joined_specification_filters_further (a : lengths)
    (conditions1 conditions2 : str) (lines : list string) :
  extract_lines a (conditions1 ++ lit "?" ++ conditions2) lines
  = filter (fun word => Forall (fun c => c ∉ build_blacklist conditions2) word)
      (extract_lines a conditions1 lines).
Proof.
  unfold extract_lines, extract_lines_with.
  rewrite !extract_loop_filter, !app_nil_l, list_filter_filter.
  apply list_filter_iff. intros word.
  change (conditions1 ++ lit "?" ++ conditions2)
    with (conditions1 ++ qmark :: conditions2).
  rewrite build_blacklist_app. apply kept_union.
Qed.

(** ** Stripping and filtering again *)

Lemma lstrip_head (c : char) (s : str) :
  isspace c = false → lstrip (c :: s) = c :: s.
Proof. intros Hc. simpl. by rewrite Hc. Qed.

Lemma length_lstrip (s : str) : length (lstrip s) ≤ length s.
Proof.
  induction s as [|c s IH]; simpl; [done|].
  destruct (isspace c); simpl; lia.
Qed.

Lemma lstrip_fixed_head (c : char) (s : str) :
  lstrip (c :: s) = c :: s → isspace c = false.
Proof.
  simpl. destruct (isspace c); [|done].
  intros Heq. pose proof (length_lstrip s) as Hlen.
  rewrite Heq in Hlen. simpl in Hlen. lia.
Qed.

Lemma lstrip_idemp (s : str) : lstrip (lstrip s) = lstrip s.
Proof.
  induction s as [|c s IH]; simpl; [done|].
  destruct (isspace c) eqn:Hc; [done|]. by apply lstrip_head.
Qed.

(** What [lstrip] removes is a run of white space. *)
Lemma lstrip_split (s : str) :
  ∃ spaces, s = spaces ++ lstrip s.
Proof.
  induction s as [|c s [spaces IH]]; simpl; [by exists []|].
  destruct (isspace c); [|by exists []].
  exists (c :: spaces). simpl. by rewrite <- IH.
Qed.

(** A stripped string starts and ends with no white space. *)
Lemma strip_stripped (s : str) :
  lstrip (strip s) = strip s ∧ lstrip (rev (strip s)) = rev (strip s).
Proof.
  unfold strip, rstrip. rewrite rev_involutive. split; [|apply lstrip_idemp].
  set (t := lstrip s).
  assert (lstrip t = t) as Ht by apply lstrip_idemp.
  destruct (lstrip_split (rev t)) as [spaces Hsplit].
  destruct (rev (lstrip (rev t))) as [|c v] eqn:Hv; [done|].
  apply lstrip_head.
  assert (t = (c :: v) ++ rev spaces) as Heq.
  { rewrite <- Hv, <- rev_app_distr, <- Hsplit. by rewrite rev_involutive. }
  rewrite Heq in Ht. by apply lstrip_fixed_head in Ht.
Qed.

Lemma strip_line_feed (w : str) :
  lstrip w = w → lstrip (rev w) = rev w → strip (w ++ [10%N]) = w.
Proof.
  intros Hleft Hright. unfold strip, rstrip.
  destruct w as [|c w]; [done|].
  apply lstrip_fixed_head in Hleft as Hc.
  change ((c :: w) ++ [10%N]) with (c :: (w ++ [10%N])).
  rewrite (lstrip_head c) by done.
  change (c :: (w ++ [10%N])) with ((c :: w) ++ [10%N]).
  rewrite rev_app_distr.
  change (rev [10%N] ++ rev (c :: w)) with (10%N :: rev (c :: w)).
  change (lstrip (10%N :: rev (c :: w))) with (lstrip (rev (c :: w))).
  by rewrite Hright, rev_involutive.
Qed.

Lemma strip_idemp (s : str) : strip (strip s) = strip s.
Proof.
  destruct (strip_stripped s) as [Hleft Hright].
  unfold strip at 1. rewrite Hleft. unfold rstrip.
  by rewrite Hright, rev_involutive.
Qed.

(** X4: the word made of a line neither starts nor ends with white space,
    and stripping it again changes nothing. *)
Theorem X4_words_are_stripped (line : string) :
  strip (word_of line) = word_of line
  ∧ (∀ c, head (word_of line) = Some c → isspace c = false)
  ∧ (∀ c, last (word_of line) = Some c → isspace c = false).
Proof.
  split; [apply strip_idemp|].
  destruct (strip_stripped (decode_latin1 line)) as [Hleft Hright].
  fold (word_of line) in Hleft, Hright. split.
  - intros c (w & Hw)%head_Some. rewrite Hw in Hleft.
    by apply lstrip_fixed_head in Hleft.
  - intros c Hlast. rewrite <- head_reverse in Hlast.
    unfold reverse in Hlast. rewrite <- rev_alt in Hlast.
    apply head_Some in Hlast as (w & Hw). rewrite Hw in Hright.
    by apply lstrip_fixed_head in Hright.
Qed.

Lemma X4_witness :
  strip (word_of "  go ") = word_of "  go "
  ∧ isspace 103%N = false ∧ isspace 111%N = false.
Proof.
  destruct (X4_words_are_stripped "  go ") as (Hidem & Hhead & Hlast).
  split; [exact Hidem|]. split.
  - apply Hhead. reflexivity.
  - apply Hlast. reflexivity.
Defined.

Lemma decode_latin1_app (s1 s2 : string) :
  decode_latin1 (String.append s1 s2) = decode_latin1 s1 ++ decode_latin1 s2.
Proof.
  unfold decode_latin1. induction s1 as [|a s1 IH]; [done|].
  change (String.append (String a s1) s2)
    with (String a (String.append s1 s2)).
  change (list_ascii_of_string (String a (String.append s1 s2)))
    with (a :: list_ascii_of_string (String.append s1 s2)).
  by rewrite fmap_cons, IH.
Qed.

Lemma decode_bytes_of (text : str) :
  Forall (fun c => (c < 256)%N) text → decode_latin1 (bytes_of text) = text.
Proof.
  unfold decode_latin1, bytes_of. intros Htext.
  rewrite list_ascii_of_string_of_list_ascii.
  induction Htext as [|c text Hc _ IH]; csimpl; [done|].
  by rewrite IH, N_ascii_embedding.
Qed.

(** A word of the source, written as a line, is read as the same word. *)
Lemma word_of_line_of (line : string) :
  word_of (line_of (word_of line)) = word_of line.
Proof.
  unfold line_of. unfold word_of at 1.
  rewrite decode_latin1_app, decode_bytes_of by apply word_of_bounded.
  destruct (strip_stripped (decode_latin1 line)) as [Hleft Hright].
  by apply strip_line_feed.
Qed.

Lemma words_of_kept_lines (P : str → Prop) `{!∀ w, Decision (P w)}
    (lines : list string) :
  word_of <$> (line_of <$> filter P (word_of <$> lines))
  = filter P (word_of <$> lines).
Proof.
  induction lines as [|line lines IH]; [done|].
  rewrite fmap_cons, filter_cons. destruct (decide (P (word_of line))).
  - by rewrite !fmap_cons, IH, word_of_line_of.
  - done.
Qed.

(** On the words: filtering lines that hold the words a first filter kept
    gives those of them that pass the second filter. *)
Lemma filter_of_kept_words (a1 a2 : lengths) (conditions1 conditions2 : str)
    (lines : list string) :
  extract_lines a2 conditions2 (line_of <$> extract_lines a1 conditions1 lines)
  = filter (kept a2 (build_blacklist conditions2))
      (extract_lines a1 conditions1 lines)
  ∧ extract_lines a1 conditions1 (line_of <$> extract_lines a1 conditions1 lines)
    = extract_lines a1 conditions1 lines.
Proof.
  unfold extract_lines, extract_lines_with.
  rewrite !extract_loop_filter, !app_nil_l, !words_of_kept_lines.
  split; [done|]. by apply list_filter_filter_l.
Qed.

(** ** What a run does to the files *)

Lemma string_append_empty (s : string) : String.append s EmptyString = s.
Proof.
  induction s as [|a s IH]; [done|].
  change (String.append (String a s) EmptyString)
    with (String a (String.append s EmptyString)).
  by rewrite IH.
Qed.

Lemma encode_latin1_bounded (text : str) :
  Forall (fun c => (c < 256)%N) text → encode_latin1 text = inr (bytes_of text).
Proof.
  intros Htext. unfold encode_latin1.
  assert (forallb (fun c => (c <? 256)%N) text = true) as ->; [|done].
  apply forallb_forall. intros c Hc%list_elem_of_In.
  apply N.ltb_lt. by apply (proj1 (Forall_forall _ _) Htext).
Qed.

Lemma encode_latin1_unbounded (text : str) (c : char) :
  c ∈ text → (256 ≤ c)%N → encode_latin1 text = inl UnicodeEncodeError.
Proof.
  intros Hc Hbig. unfold encode_latin1.
  destruct (forallb _ text) eqn:Hall; [|done].
  rewrite forallb_forall in Hall.
  apply list_elem_of_In, Hall, N.ltb_lt in Hc. lia.
Qed.

Lemma elem_of_join (sep : str) (words : list str) (c : char) :
  c ∈ join sep words → c ∈ sep ∨ ∃ w, w ∈ words ∧ c ∈ w.
Proof.
  induction words as [|w words IH]; simpl.
  - by intros ?%elem_of_nil.
  - destruct words as [|w' words].
    + intros Hc. right. exists w. split; [apply list_elem_of_here|done].
    + rewrite !elem_of_app. intros [Hc|[Hc|Hc]].
      * right. exists w. split; [apply list_elem_of_here|done].
      * by left.
      * destruct (IH Hc) as [?|(w0 & Hw0 & ?)]; [by left|].
        right. exists w0. split; [by apply list_elem_of_further|done].
Qed.

Lemma elem_of_join_word (sep : str) (words : list str) (w : str) (c : char) :
  w ∈ words → c ∈ w → c ∈ join sep words.
Proof.
  intros Hw Hc. induction words as [|w' words IH]; [by apply elem_of_nil in Hw|].
  simpl. destruct words as [|w'' words].
  - by apply list_elem_of_singleton in Hw as ->.
  - apply elem_of_cons in Hw as [->|Hw]; rewrite !elem_of_app; [by left|].
    right. right. by apply IH.
Qed.

Lemma text_bounded (words : list str) :
  Forall (Forall (fun c => (c < 256)%N)) words →
  Forall (fun c => (c < 256)%N) (join newline words ++ newline).
Proof.
  intros Hwords. apply Forall_forall. intros c [Hc|Hc]%elem_of_app.
  - apply elem_of_join in Hc as [Hc|(w & Hw & Hc)].
    + by apply list_elem_of_singleton in Hc as ->.
    + rewrite Forall_forall in Hwords.
      by apply (proj1 (Forall_forall _ _) (Hwords w Hw)).
  - by apply list_elem_of_singleton in Hc as ->.
Qed.

(** The four ways a run can go, by what the operating system answers and
    whether the text can be encoded. *)
Lemma run_outcome (sys : os) (file output what : string)
    (words : list string → list str) (σ : state) :
  ∃ m fs,
    try_except
      (open_read sys file ≫= fun lines =>
         save sys output (words lines) ≫= fun _ => print (SavedTo what output))
      (report file) σ
    = (inr (), {| files := fs; stdout := stdout σ ++ [m] |})
    ∧ (fs = files σ
       ∨ ∃ bytes,
           fs = <[output := String.append (default EmptyString (files σ !! output))
                               bytes]> (files σ)).
Proof.
  destruct (read_lines sys file) as [e|lines] eqn:Hread.
  { rewrite (read_fails_run sys file e) by done. rewrite report_prints.
    eexists _, _. split; [done|]. by left. }
  destruct (append_raises sys output) as [e|] eqn:Happend.
  { rewrite (append_fails_run sys file output what lines words e) by done.
    rewrite report_prints. eexists _, _. split; [done|]. by left. }
  destruct (encode_latin1 (join newline (words lines) ++ newline))
    as [e|bytes] eqn:Hencode.
  - unfold try_except, mbind, M_bind, open_read, save, append_text.
    rewrite Hread, Happend, Hencode. rewrite report_prints. simpl.
    eexists _, _. split; [done|]. right. exists EmptyString.
    by rewrite string_append_empty.
  - rewrite (save_run sys file output what lines words bytes) by done.
    eexists _, _. split; [done|]. right. by exists bytes.
Qed.

Lemma run_only_appends (sys : os) (file output what : string)
    (words : list string → list str) (σ : state) :
  only_appends output σ
    (try_except
       (open_read sys file ≫= fun lines =>
          save sys output (words lines) ≫= fun _ => print (SavedTo what output))
       (report file) σ).2.
Proof.
  destruct (run_outcome sys file output what words σ)
    as (m & fs & -> & [->|[bytes ->]]); unfold only_appends; cbn [snd files stdout].
  - split; [done|]. split; [|by exists m].
    intros content Hcontent. exists EmptyString.
    by rewrite string_append_empty.
  - split; [|split; [|by exists m]].
    + intros path Hpath. by rewrite lookup_insert_ne.
    + intros content Hcontent. exists bytes.
      by rewrite lookup_insert_eq, Hcontent.
Qed.

(** X6: whatever the operating system answers, each of the three commands
    prints one line, leaves every file other than its output as it was,
    and never truncates the output: what it held before is still at its
    start. *)
Theorem X6_commands_only_append (sys : os) (file output : string)
    (a : lengths) (conditions : str) (L : Z) (charset : str)
    (prepend extended : bool) (σ : state) :
  only_appends output σ (extractWords sys file a conditions output σ).2
  ∧ only_appends output σ
      (generateDictionary sys file L charset output prepend σ).2
  ∧ only_appends output σ (generateCombinatory sys file output extended σ).2.
Proof.
  split; [|split].
  - apply (run_only_appends sys file output _
             (extract_lines_with a (build_blacklist conditions))).
  - apply (run_only_appends sys file output _
             (pad_lines L (parse_charset charset) prepend)).
  - apply (run_only_appends sys file output _
             (fun lines => elements (list_to_set (combinatory_lines extended lines)
                                       : gset str))).
Qed.

Lemma extract_lines_bounded a conditions lines :
  Forall (Forall (fun c => (c < 256)%N)) (extract_lines a conditions lines).
Proof.
  apply Forall_forall. intros w [Hw _]%elem_of_extract_lines.
  apply list_elem_of_fmap in Hw as (line & -> & _). apply word_of_bounded.
Qed.

(** X7: the filter never fails on encoding: when the source is read and the
    output can be appended to, extractWords appends bytes that decode to
    the kept words, one per line, and prints that they were saved. *)
Theorem X7_extractWords_saves (sys : os) (file output : string)
    (a : lengths) (conditions : str) (lines : list string) (σ : state) :
  read_lines sys file = inr lines →
  append_raises sys output = None →
  ∃ bytes,
    extractWords sys file a conditions output σ
    = (inr (),
       {| files :=
            <[output := String.append (default EmptyString (files σ !! output))
                          bytes]> (files σ);
          stdout := stdout σ ++ [SavedTo "Extracted words" output] |})
    ∧ decode_latin1 bytes
      = join newline (extract_lines a conditions lines) ++ newline.
Proof.
  intros Hread Happend.
  pose proof (text_bounded _ (extract_lines_bounded a conditions lines)) as Htext.
  exists (bytes_of (join newline (extract_lines a conditions lines) ++ newline)).
  split; [|by apply decode_bytes_of].
  unfold extractWords.
  apply (save_run sys file output _ lines
           (extract_lines_with a (build_blacklist conditions))); [done..|].
  by apply encode_latin1_bounded.
Qed.

Lemma X7_witness :
  ∃ bytes,
    extractWords (source_of ["Ab1"; "abcd"; " go1 "]%string) "words.txt"
      (exactly 3) (lit "?u") "out.txt" one_word_written
    = (inr (),
       {| files := <[ "out.txt"%string := String.append "word" bytes ]>
                     (files one_word_written);
          stdout := [SavedTo "Extracted words" "out.txt"] |})
    ∧ decode_latin1 bytes = lit "go1" ++ newline.
Proof.
  apply (X7_extractWords_saves (source_of ["Ab1"; "abcd"; " go1 "]%string)
           "words.txt" "out.txt" (exactly 3) (lit "?u")
           ["Ab1"; "abcd"; " go1 "]%string one_word_written); reflexivity.
Defined.

(** X8: an exception other than [FileNotFoundError], raised when the source
    is opened or read or when the output is opened, is reported by the
    message of the other failures, and no file is changed. *)
Theorem X8_other_exception_reported (sys : os) (file output : string)
    (a : lengths) (conditions : str) (L : Z) (charset : str)
    (prepend extended : bool) (e : exception) (σ : state) :
  e ≠ FileNotFoundError →
  read_lines sys file = inl e
  ∨ (∃ lines, read_lines sys file = inr lines)
    ∧ append_raises sys output = Some e →
  let reported :=
    (inr (), {| files := files σ; stdout := stdout σ ++ [ErrorOccurred e] |}) in
  extractWords sys file a conditions output σ = reported
  ∧ generateDictionary sys file L charset output prepend σ = reported
  ∧ generateCombinatory sys file output extended σ = reported.
Proof.
  intros He Hraise reported.
  assert (report file e σ = reported) as <-.
  { rewrite report_prints. by destruct e. }
  destruct Hraise as [Hread|[[lines Hread] Happend]].
  - split; [|split]; by apply read_fails_run.
  - split; [|split].
    + by apply (append_fails_run sys file output _ lines
                  (extract_lines_with a (build_blacklist conditions))).
    + by apply (append_fails_run sys file output _ lines
                  (pad_lines L (parse_charset charset) prepend)).
    + by apply (append_fails_run sys file output _ lines
                  (fun lines => elements (list_to_set
                                            (combinatory_lines extended lines)
                                          : gset str))).
Qed.

Lemma X8_witness :
  let sys := {| read_lines := fun _ => inl (OtherException "Permission denied");
                append_raises := fun _ => None |} in
  let reported :=
    (inr (), {| files := files one_word_written;
                stdout := [ErrorOccurred (OtherException "Permission denied")] |}) in
  extractWords sys "words.txt" any_length [] "out.txt" one_word_written = reported
  ∧ generateDictionary sys "words.txt" 3 (lit "?d") "out.txt" false
      one_word_written = reported
  ∧ generateCombinatory sys "words.txt" "out.txt" true one_word_written
    = reported.
Proof.
  intros sys.
  apply (X8_other_exception_reported sys "words.txt" "out.txt" any_length []
           3 (lit "?d") false true (OtherException "Permission denied")
           one_word_written).
  - done.
  - by left.
Defined.

(** ** Padding, continued *)

Lemma elem_of_paddings (charset : str) (k : nat) (p : str) :
  p ∈ paddings charset k ↔ length p = k ∧ Forall (fun c => c ∈ charset) p.
Proof.
  revert p. induction k as [|k IH]; intros p.
  - rewrite paddings_0, list_elem_of_singleton. split.
    + by intros ->.
    + by intros [->%nil_length_inv _].
  - rewrite paddings_S, list_elem_of_bind. split.
    + intros (p' & (c & -> & Hc)%list_elem_of_fmap & [Hlen Hall]%IH).
      split; [rewrite length_app; simpl; lia|].
      apply Forall_app. by repeat constructor.
    + intros [Hlen Hall].
      destruct p as [|c p _] using rev_ind; [done|].
      rewrite length_app in Hlen. simpl in Hlen.
      apply Forall_app in Hall as [Hp [Hc _]%Forall_cons].
      exists p. split.
      * apply list_elem_of_fmap. by exists c.
      * apply IH. split; [lia|done].
Qed.







Lemma pad_word_acc L charset prepend generated_words word :
  pad_word L charset prepend generated_words word
  = generated_words ++ pad_word L charset prepend [] word.
Proof.
  destruct (Z.lt_trichotomy (Z.of_nat (length word)) L) as [Hlt|[Heq|Hgt]].
  - by rewrite !(pad_word_shorter L charset prepend _ word Hlt).
  - by rewrite !(pad_word_equal L charset prepend _ word Heq).
  - rewrite !(pad_word_longer L charset prepend _ word Hgt).
    by rewrite app_nil_r.
Qed.

Lemma pad_loop_bind L charset prepend lines generated_words :
  fold_left
    (fun generated_words line =>
       pad_word L charset prepend generated_words (strip (decode_latin1 line)))
    lines generated_words
  = generated_words
    ++ (lines ≫= fun line => pad_word L charset prepend [] (word_of line)).
Proof.
  revert generated_words.
  induction lines as [|line lines IH]; intros generated_words.
  - by rewrite app_nil_r.
  - cbn [fold_left]. rewrite IH, bind_cons, pad_word_acc, <- app_assoc.
    reflexivity.
Qed.

Lemma pad_lines_bind L charset prepend lines :
  pad_lines L charset prepend lines
  = lines ≫= fun line => pad_word L charset prepend [] (word_of line).
Proof. unfold pad_lines. by rewrite pad_loop_bind. Qed.



Lemma pad_word_empty_charset L prepend word :
  pad_word L [] prepend [] word
  = filter (kept (exactly L) ∅) [word].
Proof.
  destruct (Z.lt_trichotomy (Z.of_nat (length word)) L) as [Hlt|[Heq|Hgt]].
  - rewrite pad_word_shorter, app_nil_l by done.
    destruct (Z.to_nat (L - Z.of_nat (length word))) as [|k] eqn:Hk; [lia|].
    rewrite paddings_S. rewrite filter_cons_False, filter_nil.
    + by induction (paddings [] k).
    + intros [(_ & Hexact & _) _]. simpl in Hexact. lia.
  - rewrite pad_word_equal by done. rewrite filter_cons_True; [done|].
    split; [by repeat split|]. apply Forall_forall. set_solver.
  - rewrite pad_word_longer by done. rewrite filter_cons_False; [done|].
    intros [(_ & Hexact & _) _]. simpl in Hexact. lia.
Qed.

(** X12: with an empty charset padding is the filter on the exact length:
    the words of the target length are written, in order, and every other
    word is dropped. *)
Theorem X12_pad_with_empty_charset (L : Z) (prepend : bool)
    (lines : list string) :
  parse_charset [] = []
  ∧ pad_lines L [] prepend lines = extract_lines (exactly L) [] lines.
Proof.
  split; [reflexivity|].
  unfold extract_lines, extract_lines_with.
  rewrite pad_lines_bind, extract_loop_filter, app_nil_l.
  change (build_blacklist []) with (∅ : gset N).
  induction lines as [|line lines IH]; [done|].
  rewrite bind_cons, IH, pad_word_empty_charset, fmap_cons.
  rewrite !filter_cons, filter_nil. by destruct (decide _).
Qed.

Lemma parse_charset_bounded (charset : str) :
  Forall (fun c => (c < 256)%N) charset →
  Forall (fun c => (c < 256)%N) (parse_charset charset).
Proof.
  intros Hcharset. unfold parse_charset, predefined_charsets. simpl.
  repeat case_decide; try done;
    by (apply (bool_decide_unpack _); vm_compute).
Qed.

Lemma pad_word_bounded L charset prepend word :
  Forall (fun c => (c < 256)%N) charset →
  Forall (fun c => (c < 256)%N) word →
  Forall (Forall (fun c => (c < 256)%N)) (pad_word L charset prepend [] word).
Proof.
  intros Hcharset Hword.
  destruct (Z.lt_trichotomy (Z.of_nat (length word)) L) as [Hlt|[Heq|Hgt]].
  - rewrite pad_word_shorter, app_nil_l by done.
    apply Forall_fmap, Forall_forall. intros p [_ Hp]%elem_of_paddings.
    assert (Forall (fun c => (c < 256)%N) p) as Hbounded.
    { apply Forall_forall. intros c Hc.
      apply (proj1 (Forall_forall _ _) Hcharset).
      by apply (proj1 (Forall_forall _ _) Hp). }
    unfold padded. simpl. destruct prepend; by apply Forall_app.
  - rewrite pad_word_equal by done. by repeat constructor.
  - rewrite pad_word_longer by done. constructor.
Qed.

Lemma pad_lines_bounded L charset prepend lines :
  Forall (fun c => (c < 256)%N) charset →
  Forall (Forall (fun c => (c < 256)%N)) (pad_lines L charset prepend lines).
Proof.
  intros Hcharset. rewrite pad_lines_bind. apply Forall_forall.
  intros s (line & Hs & _)%list_elem_of_bind.
  revert s Hs. apply Forall_forall, pad_word_bounded; [done|].
  apply word_of_bounded.
Qed.

(** With a resolved charset of latin-1 characters the padded words are
    encoded and appended. *)
Lemma pad_run_saved (sys : os) (file output : string)
    (L : Z) (charset : str) (prepend : bool) (lines : list string)
    (σ : state) :
  Forall (fun c => (c < 256)%N) (parse_charset charset) →
  read_lines sys file = inr lines →
  append_raises sys output = None →
  ∃ bytes,
    generateDictionary sys file L charset output prepend σ
    = (inr (),
       {| files :=
            <[output := String.append (default EmptyString (files σ !! output))
                          bytes]> (files σ);
          stdout := stdout σ ++ [SavedTo "Generated words" output] |})
    ∧ decode_latin1 bytes
      = join newline (pad_lines L (parse_charset charset) prepend lines)
        ++ newline.
Proof.
  intros Hcharset Hread Happend.
  pose proof (text_bounded _
    (pad_lines_bounded L _ prepend lines Hcharset)) as Htext.
  eexists. split; [|by apply decode_bytes_of].
  unfold generateDictionary.
  apply (save_run sys file output _ lines
           (pad_lines L (parse_charset charset) prepend)); [done..|].
  by apply encode_latin1_bounded.
Qed.

(** X13: with a charset of latin-1 characters padding never fails on
    encoding: when the source is read and the output can be appended to,
    generateDictionary appends bytes that decode to the padded words, one
    per line, and prints that they were saved. *)
Theorem X13_generateDictionary_saves (sys : os) (file output : string)
    (L : Z) (charset : str) (prepend : bool) (lines : list string)
    (σ : state) :
  Forall (fun c => (c < 256)%N) charset →
  read_lines sys file = inr lines →
  append_raises sys output = None →
  ∃ bytes,
    generateDictionary sys file L charset output prepend σ
    = (inr (),
       {| files :=
            <[output := String.append (default EmptyString (files σ !! output))
                          bytes]> (files σ);
          stdout := stdout σ ++ [SavedTo "Generated words" output] |})
    ∧ decode_latin1 bytes
      = join newline (pad_lines L (parse_charset charset) prepend lines)
        ++ newline.
Proof.
  intros Hcharset%parse_charset_bounded. by apply pad_run_saved.
Qed.

Lemma X13_witness :
  ∃ bytes,
    generateDictionary (source_of ["abc"; " ab"; "abcd"]%string) "words.txt" 3
      (lit "01") "out.txt" false one_word_written
    = (inr (),
       {| files := <[ "out.txt"%string := String.append "word" bytes ]>
                     (files one_word_written);
          stdout := [SavedTo "Generated words" "out.txt"] |})
    ∧ decode_latin1 bytes
      = lit "abc" ++ newline ++ lit "ab0" ++ newline ++ lit "ab1" ++ newline.
Proof.
  apply (X13_generateDictionary_saves
           (source_of ["abc"; " ab"; "abcd"]%string) "words.txt" "out.txt" 3
           (lit "01") false ["abc"; " ab"; "abcd"]%string one_word_written).
  - repeat constructor.
  - reflexivity.
  - reflexivity.
Defined.

(** When the text cannot be encoded, the output has been opened, so it
    exists, with what it held; the failure is reported. *)
Lemma encode_fails_run (sys : os) (file output what : string)
    (lines : list string) (words : list string → list str) (σ : state) :
  read_lines sys file = inr lines →
  append_raises sys output = None →
  encode_latin1 (join newline (words lines) ++ newline) = inl UnicodeEncodeError →
  try_except
    (open_read sys file ≫= fun lines =>
       save sys output (words lines) ≫= fun _ => print (SavedTo what output))
    (report file) σ
  = (inr (),
     {| files := <[output := default EmptyString (files σ !! output)]> (files σ);
        stdout := stdout σ ++ [ErrorOccurred UnicodeEncodeError] |}).
Proof.
  intros Hread Happend Hencode.
  unfold try_except, mbind, M_bind, open_read, save, append_text.
  by rewrite Hread, Happend, Hencode.
Qed.

(** X14: a character above U+00FF in the resolved charset makes the whole
    run fail as soon as one word of the source is shorter than the target
    length: nothing is appended, the output exists afterwards with what it
    held, and an encoding error is reported. *)
Theorem X14_generateDictionary_wide_charset (sys : os) (file output : string)
    (L : Z) (charset : str) (prepend : bool) (lines : list string)
    (line : string) (c : char) (σ : state) :
  read_lines sys file = inr lines →
  append_raises sys output = None →
  c ∈ parse_charset charset → (256 ≤ c)%N →
  line ∈ lines → (Z.of_nat (length (word_of line)) < L)%Z →
  generateDictionary sys file L charset output prepend σ
  = (inr (),
     {| files := <[output := default EmptyString (files σ !! output)]> (files σ);
        stdout := stdout σ ++ [ErrorOccurred UnicodeEncodeError] |}).
Proof.
  intros Hread Happend Hc Hwide Hline Hshort.
  unfold generateDictionary.
  apply (encode_fails_run sys file output _ lines
           (pad_lines L (parse_charset charset) prepend)); [done..|].
  apply (encode_latin1_unbounded _ c); [|done].
  apply elem_of_app. left.
  set (k := Z.to_nat (L - Z.of_nat (length (word_of line)))).
  apply (elem_of_join_word _ _
           (padded prepend (word_of line) (replicate k c))).
  - rewrite pad_lines_bind. apply list_elem_of_bind. exists line.
    split; [|done].
    rewrite pad_word_shorter, app_nil_l by done.
    apply list_elem_of_fmap. eexists. split; [done|].
    apply elem_of_paddings. split; [apply length_replicate|].
    by apply Forall_replicate.
  - assert (0 < k) as Hk by lia.
    unfold padded. destruct prepend; apply elem_of_app; [left|right];
      destruct k; try lia; apply list_elem_of_here.
Qed.

Lemma X14_witness :
  generateDictionary
    {| read_lines := fun _ => inr ["ab"%string]; append_raises := fun _ => None |}
    "words.txt" 3 [8364%N] "out.txt" false one_word_written
  = (inr (),
     {| files := <[ "out.txt"%string := "word"%string ]> (files one_word_written);
        stdout := [ErrorOccurred UnicodeEncodeError] |}).
Proof.
  apply (X14_generateDictionary_wide_charset _ "words.txt" "out.txt" 3
           [8364%N] false ["ab"%string] "ab"%string 8364%N one_word_written).
  - reflexivity.
  - reflexivity.
  - apply list_elem_of_here.
  - vm_compute. discriminate.
  - apply list_elem_of_here.
  - vm_compute. reflexivity.
Defined.

(** ** Case variants and substitutions over a run *)

Lemma fold_left_extend {A B} (g : A → list B) (l : list A) (acc : list B) :
  fold_left (fun acc x => acc ++ g x) l acc = acc ++ (l ≫= g).
Proof.
  revert acc. induction l as [|x l IH]; intros acc; cbn [fold_left].
  - by rewrite app_nil_r.
  - by rewrite IH, bind_cons, app_assoc.
Qed.

Lemma combinatory_word_acc extended generated_words word :
  combinatory_word extended generated_words word
  = generated_words ++ combinatory_word extended [] word.
Proof.
  unfold combinatory_word. destruct extended.
  - by rewrite !fold_left_extend, app_nil_l, app_assoc.
  - by rewrite app_nil_l.
Qed.

Lemma elem_of_combinatory_word extended word s :
  s ∈ combinatory_word extended [] word
  ↔ s ∈ case_combos word
    ∨ (extended = true
       ∧ ∃ combo, combo ∈ case_combos word ∧ s ∈ substitutions_combos combo).
Proof.
  unfold combinatory_word. destruct extended.
  - rewrite fold_left_extend, app_nil_l, elem_of_app, elem_of_elements,
      list_elem_of_bind.
    setoid_rewrite elem_of_elements. naive_solver.
  - rewrite app_nil_l, elem_of_elements. naive_solver.
Qed.

Lemma combinatory_lines_bind extended lines :
  combinatory_lines extended lines
  = lines ≫= fun line => combinatory_word extended [] (word_of line).
Proof.
  unfold combinatory_lines.
  assert (∀ acc,
    fold_left
      (fun generated_words line =>
         combinatory_word extended generated_words (strip (decode_latin1 line)))
      lines acc
    = acc ++ (lines ≫= fun line => combinatory_word extended [] (word_of line)))
    as Hloop.
  { induction lines as [|line lines IH]; intros acc; cbn [fold_left].
    - by rewrite app_nil_r.
    - by rewrite IH, bind_cons, combinatory_word_acc, <- app_assoc. }
  by rewrite Hloop.
Qed.

Lemma elem_of_combinatory_lines extended lines s :
  s ∈ combinatory_lines extended lines
  ↔ ∃ line,
      line ∈ lines
      ∧ (s ∈ case_combos (word_of line)
         ∨ (extended = true
            ∧ ∃ combo, combo ∈ case_combos (word_of line)
                       ∧ s ∈ substitutions_combos combo)).
Proof.
  rewrite combinatory_lines_bind, list_elem_of_bind.
  setoid_rewrite elem_of_combinatory_word. naive_solver.
Qed.

(** The set that generateCombinatory builds: the case variants of the
    words of the source and, in extended mode, for every variant its
    characters, each as a string of its own, and its single substitutions. *)
Lemma combinatory_set (extended : bool) (lines : list string) (s : str) :
  let written := elements (list_to_set (combinatory_lines extended lines) : gset str) in
  NoDup written
  ∧ (s ∈ written
     ↔ ∃ line,
         line ∈ lines
         ∧ (s ∈ case_combos (word_of line)
            ∨ (extended = true
               ∧ ∃ combo,
                   combo ∈ case_combos (word_of line)
                   ∧ ((∃ c, c ∈ combo ∧ s = [c])
                      ∨ s ∈ single_substitutions combo)))).
Proof.
  intros written. split; [apply NoDup_elements|].
  unfold written.
  rewrite elem_of_elements, elem_of_list_to_set, elem_of_combinatory_lines.
  setoid_rewrite substitutions_combos_split.
  setoid_rewrite elem_of_union. setoid_rewrite elem_of_list_to_set.
  unfold chars. setoid_rewrite list_elem_of_fmap. naive_solver.
Qed.

(** X16: extended mode only adds: every line written without it is
    written with it. *)
Theorem X16_extended_only_adds (lines : list string) :
  (list_to_set (combinatory_lines false lines) : gset str)
  ⊆ list_to_set (combinatory_lines true lines).
Proof.
  intros s. rewrite !elem_of_list_to_set, !elem_of_combinatory_lines.
  naive_solver.
Qed.

Lemma own_case_latin1 (c : char) : (c < 256)%N → own_case c = true.
Proof.
  intros Hc.
  assert (forallb own_case (N.of_nat <$> seq 0 256) = true) as Hall
    by (vm_compute; reflexivity).
  rewrite forallb_forall in Hall. apply Hall.
  apply list_elem_of_In, list_elem_of_fmap. exists (N.to_nat c).
  split; [by rewrite N2Nat.id|].
  apply list_elem_of_In, in_seq. lia.
Qed.

Lemma word_is_case_choice (word : str) :
  Forall (fun c => (c < 256)%N) word →
  ∃ choices : list bool,
    length choices = length word ∧ word = case_choice choices word.
Proof.
  induction 1 as [|c word Hc _ (choices & Hlen & Heq)]; [by exists []|].
  apply own_case_latin1, orb_true_iff in Hc as [Hlow|Hup];
    apply bool_decide_eq_true in Hlow || apply bool_decide_eq_true in Hup.
  - exists (false :: choices). split; [simpl; by rewrite Hlen|].
    unfold case_choice in *. simpl. by rewrite <- Hlow, <- Heq.
  - exists (true :: choices). split; [simpl; by rewrite Hlen|].
    unfold case_choice in *. simpl. by rewrite <- Hup, <- Heq.
Qed.

(** A word of the source is one of its own case variants. *)
Lemma word_among_its_variants (extended : bool) (lines : list string)
    (line : string) :
  word_of line ∈ case_combos (word_of line)
  ∧ (line ∈ lines →
     word_of line ∈ (list_to_set (combinatory_lines extended lines) : gset str)).
Proof.
  assert (word_of line ∈ case_combos (word_of line)) as Hown.
  { apply elem_of_case_combos, word_is_case_choice, word_of_bounded. }
  split; [done|]. intros Hline.
  apply elem_of_list_to_set, elem_of_combinatory_lines.
  exists line. split; [done|]. by left.
Qed.


(** ** Substitutions, continued *)

Lemma elem_of_single_substitutions (combo s : str) :
  s ∈ single_substitutions combo
  ↔ ∃ char subs sub,
      (char, subs) ∈ substitutions ∧ char ∈ combo ∧ sub ∈ subs
      ∧ s = replace combo char sub.
Proof.
  unfold single_substitutions. rewrite flat_map_bind, list_elem_of_bind.
  assert (∀ char, contains combo char = true ↔ char ∈ combo) as Hcontains.
  { intros char. unfold contains. rewrite existsb_exists. split.
    - intros (c & Hc & ->%N.eqb_eq). by apply list_elem_of_In.
    - intros Hc. exists char. split; [by apply list_elem_of_In|apply N.eqb_refl]. }
  split.
  - intros ([char subs] & Hs & Hin).
    destruct (contains combo char) eqn:Hc; [|by apply elem_of_nil in Hs].
    apply list_elem_of_fmap in Hs as (sub & -> & Hsub).
    exists char, subs, sub. by rewrite <- Hcontains.
  - intros (char & subs & sub & Hin & Hc & Hsub & ->).
    exists (char, subs). split; [|done].
    apply Hcontains in Hc. rewrite Hc. apply list_elem_of_fmap. by exists sub.
Qed.

Lemma substitutions_plain (char : char) (subs : list str) (sub : str) :
  (char, subs) ∈ substitutions → sub ∈ subs →
  ∃ x, sub = [x] ∧ x ≠ char ∧ (x < 256)%N.
Proof.
  intros Hin Hsub.
  assert (forallb (fun '(char, subs) => forallb (plain_replacement char) subs)
            substitutions = true) as Hall by (vm_compute; reflexivity).
  rewrite forallb_forall in Hall.
  apply list_elem_of_In, Hall in Hin. rewrite forallb_forall in Hin.
  apply list_elem_of_In, Hin in Hsub. unfold plain_replacement in Hsub.
  destruct sub as [|x [|]]; try done.
  apply andb_true_iff in Hsub as [Hne%negb_true_iff%N.eqb_neq Hlt%N.ltb_lt].
  by exists x.
Qed.

Lemma replace_one (s : str) (old x : char) :
  replace s old [x] = (fun c => if (c =? old)%N then x else c) <$> s.
Proof.
  unfold replace. induction s as [|c s IH]; [done|].
  cbn [flat_map]. rewrite IH, fmap_cons. by destruct (c =? old)%N.
Qed.

(** X18: a single substitution of a case variant has the length of the
    variant, no longer contains the letter it replaces, and so differs from
    the variant. *)
Theorem X18_single_substitution (combo s : str) :
  s ∈ single_substitutions combo →
  length s = length combo
  ∧ s ≠ combo
  ∧ ∃ char, char ∈ combo ∧ char ∉ s.
Proof.
  intros (char & subs & sub & Hin & Hc & Hsub & ->)%elem_of_single_substitutions.
  destruct (substitutions_plain char subs sub Hin Hsub) as (x & -> & Hne & _).
  rewrite replace_one.
  assert (char ∉ (fun c => if (c =? char)%N then x else c) <$> combo) as Hgone.
  { intros (c & Heq & _)%list_elem_of_fmap.
    destruct (N.eqb_spec c char); congruence. }
  split; [apply length_fmap|]. split; [|by exists char].
  intros Heq. by rewrite Heq in Hgone.
Qed.

Lemma X18_witness :
  length (lit "g0") = length (lit "go")
  ∧ lit "g0" ≠ lit "go"
  ∧ ∃ char, char ∈ lit "go" ∧ char ∉ lit "g0".
Proof.
  apply (X18_single_substitution (lit "go") (lit "g0")).
  vm_compute. set_solver.
Defined.

(** ** Encoding the case variants *)

Lemma cases_latin1_all (c : char) : (c < 256)%N → cases_latin1 c = true.
Proof.
  intros Hc.
  assert (forallb cases_latin1 (N.of_nat <$> seq 0 256) = true) as Hall
    by (vm_compute; reflexivity).
  rewrite forallb_forall in Hall. apply Hall.
  apply list_elem_of_In, list_elem_of_fmap. exists (N.to_nat c).
  split; [by rewrite N2Nat.id|].
  apply list_elem_of_In, in_seq. lia.
Qed.

Lemma case_bounded (c : char) :
  (c < 256)%N → c ≠ 181%N → c ≠ 255%N →
  Forall (fun x => (x < 256)%N) (lower c)
  ∧ Forall (fun x => (x < 256)%N) (upper c).
Proof.
  intros Hc H181 H255. pose proof (cases_latin1_all c Hc) as Hall.
  unfold cases_latin1 in Hall.
  apply N.eqb_neq in H181, H255. rewrite H181, H255 in Hall. simpl in Hall.
  apply andb_true_iff in Hall as [Hlow Hup].
  split; apply Forall_forall; intros x Hx%list_elem_of_In.
  - rewrite forallb_forall in Hlow. by apply N.ltb_lt, Hlow.
  - rewrite forallb_forall in Hup. by apply N.ltb_lt, Hup.
Qed.

Lemma case_choice_bounded (choices : list bool) (word : str) :
  Forall (fun c => (c < 256)%N) word → 181%N ∉ word → 255%N ∉ word →
  Forall (fun c => (c < 256)%N) (case_choice choices word).
Proof.
  intros Hword. revert choices.
  induction Hword as [|c word Hc _ IH]; intros choices H181 H255.
  - unfold case_choice. by destruct choices.
  - apply not_elem_of_cons in H181 as [Hc181 H181].
    apply not_elem_of_cons in H255 as [Hc255 H255].
    destruct choices as [|up choices]; [constructor|].
    unfold case_choice in *. simpl. apply Forall_app.
    destruct (case_bounded c) as [Hlow Hup]; [done..|].
    split; [by destruct up|by apply IH].
Qed.

Lemma substitutions_combos_bounded (combo s : str) :
  Forall (fun c => (c < 256)%N) combo →
  s ∈ substitutions_combos combo →
  Forall (fun c => (c < 256)%N) s.
Proof.
  intros Hcombo. rewrite substitutions_combos_split, elem_of_union,
    !elem_of_list_to_set.
  rewrite Forall_forall in Hcombo.
  intros [(c & -> & Hc)%list_elem_of_fmap|Hs].
  - repeat constructor. by apply Hcombo.
  - apply elem_of_single_substitutions in Hs
      as (char & subs & sub & Hin & Hc & Hsub & ->).
    destruct (substitutions_plain char subs sub Hin Hsub) as (x & -> & _ & Hx).
    rewrite replace_one. apply Forall_fmap, Forall_forall. intros c Hcin.
    simpl. destruct (c =? char)%N; [done|by apply Hcombo].
Qed.

Lemma upper_in_all_upper (word : str) (c x : char) :
  c ∈ word → x ∈ upper c →
  x ∈ case_choice (replicate (length word) true) word.
Proof.
  intros Hc Hx. unfold case_choice.
  induction word as [|c' word IH]; [by apply elem_of_nil in Hc|].
  simpl. apply elem_of_app.
  apply elem_of_cons in Hc as [->|Hc]; [by left|right; by apply IH].
Qed.

Lemma combinatory_lines_bounded extended lines :
  (∀ line, line ∈ lines →
     (181%N ∉ word_of line) ∧ (255%N ∉ word_of line)) →
  Forall (Forall (fun c => (c < 256)%N))
    (elements (list_to_set (combinatory_lines extended lines) : gset str)).
Proof.
  intros Hplain. apply Forall_forall. intros s.
  rewrite elem_of_elements, elem_of_list_to_set, elem_of_combinatory_lines.
  intros (line & Hline & Hs). destruct (Hplain line Hline) as [H181 H255].
  assert (∀ combo, combo ∈ case_combos (word_of line) →
            Forall (fun c => (c < 256)%N) combo) as Hcombos.
  { intros combo (choices & _ & ->)%elem_of_case_combos.
    apply case_choice_bounded; [apply word_of_bounded|done..]. }
  destruct Hs as [Hs|(_ & combo & Hcombo & Hs)]; [by apply Hcombos|].
  apply (substitutions_combos_bounded combo); [by apply Hcombos|done].
Qed.

(** When no word of the source has the micro sign (byte 181) or y with
    diaeresis (byte 255), the set is encoded and appended, in the order of
    its [elements]. *)
Lemma combinatory_run_saved (sys : os) (file output : string)
    (extended : bool) (lines : list string) (σ : state) :
  read_lines sys file = inr lines →
  append_raises sys output = None →
  (∀ line, line ∈ lines →
     (181%N ∉ word_of line) ∧ (255%N ∉ word_of line)) →
  ∃ bytes,
    generateCombinatory sys file output extended σ
    = (inr (),
       {| files :=
            <[output := String.append (default EmptyString (files σ !! output))
                          bytes]> (files σ);
          stdout := stdout σ ++ [SavedTo "Combinatory words" output] |})
    ∧ decode_latin1 bytes
      = join newline
          (elements (list_to_set (combinatory_lines extended lines) : gset str))
        ++ newline.
Proof.
  intros Hread Happend Hplain.
  pose proof (text_bounded _
    (combinatory_lines_bounded extended lines Hplain)) as Htext.
  eexists. split; [|by apply decode_bytes_of].
  unfold generateCombinatory.
  apply (save_run sys file output _ lines
           (fun lines => elements (list_to_set (combinatory_lines extended lines)
                                     : gset str))); [done..|].
  by apply encode_latin1_bounded.
Qed.


(** X20: a word with the micro sign or y with diaeresis makes the whole
    run of generateCombinatory fail: their upper cases are not latin-1, so
    the text cannot be encoded; nothing is appended, the output exists
    afterwards with what it held, and an encoding error is reported. *)
Theorem X20_generateCombinatory_wide_upper (sys : os) (file output : string)
    (extended : bool) (lines : list string) (line : string) (σ : state) :
  read_lines sys file = inr lines →
  append_raises sys output = None →
  line ∈ lines →
  181%N ∈ word_of line ∨ 255%N ∈ word_of line →
  generateCombinatory sys file output extended σ
  = (inr (),
     {| files := <[output := default EmptyString (files σ !! output)]> (files σ);
        stdout := stdout σ ++ [ErrorOccurred UnicodeEncodeError] |}).
Proof.
  intros Hread Happend Hline Hwide.
  unfold generateCombinatory.
  apply (encode_fails_run sys file output _ lines
           (fun lines => elements (list_to_set (combinatory_lines extended lines)
                                     : gset str))); [done..|].
  set (variant := case_choice (replicate (length (word_of line)) true)
                    (word_of line)).
  assert (∃ x, x ∈ variant ∧ (256 ≤ x)%N) as (x & Hx & Hbig).
  { destruct Hwide as [Hc|Hc].
    - exists 924%N. split; [|lia].
      apply (upper_in_all_upper _ 181%N); [done|apply list_elem_of_here].
    - exists 376%N. split; [|lia].
      apply (upper_in_all_upper _ 255%N); [done|apply list_elem_of_here]. }
  apply (encode_latin1_unbounded _ x); [|done].
  apply elem_of_app. left. apply (elem_of_join_word _ _ variant); [|done].
  apply elem_of_elements, elem_of_list_to_set, elem_of_combinatory_lines.
  exists line. split; [done|]. left.
  apply elem_of_case_combos. exists (replicate (length (word_of line)) true).
  split; [apply length_replicate|done].
Qed.

Lemma X20_witness :
  generateCombinatory
    {| read_lines := fun _ => inr ["go"%string; String "255" EmptyString];
       append_raises := fun _ => None |}
    "words.txt" "out.txt" false one_word_written
  = (inr (),
     {| files := <[ "out.txt"%string := "word"%string ]> (files one_word_written);
        stdout := [ErrorOccurred UnicodeEncodeError] |}).
Proof.
  apply (X20_generateCombinatory_wide_upper _ "words.txt" "out.txt" false
           ["go"%string; String "255" EmptyString] (String "255" EmptyString)
           one_word_written).
  - reflexivity.
  - reflexivity.
  - set_solver.
  - right. vm_compute. set_solver.
Defined.

(** ** The charset *)

(** X21: no table of [parse_charset] is the name of a table, so resolving
    a resolved charset changes nothing; and a charset that is not one of
    the seven names is taken as it is written. *)
Theorem X21_parse_charset_idempotent (charset : str) :
  parse_charset (parse_charset charset) = parse_charset charset
  ∧ (charset ∉ (fst <$> predefined_charsets) → parse_charset charset = charset).
Proof.
  split.
  - unfold parse_charset.
    destruct (dict_get predefined_charsets charset) as [table|] eqn:Hget;
      [|by rewrite Hget].
    assert (dict_get predefined_charsets table = None) as ->; [|done].
    unfold predefined_charsets in Hget. simpl in Hget.
    repeat case_decide; simplify_eq; by vm_compute.
  - intros Hnot. unfold parse_charset.
    destruct (dict_get predefined_charsets charset) as [table|] eqn:Hget;
      [|done].
    exfalso. apply Hnot.
    unfold predefined_charsets in Hget. simpl in Hget.
    repeat case_decide; simplify_eq; vm_compute; set_solver.
Qed.

Lemma X21_witness :
  parse_charset (parse_charset (lit "xyz")) = parse_charset (lit "xyz")
  ∧ parse_charset (lit "xyz") = lit "xyz".
Proof.
  destruct (X21_parse_charset_idempotent (lit "xyz")) as [Hidem Hliteral].
  split; [exact Hidem|]. apply Hliteral. vm_compute. set_solver.
Defined.

(** ** The number of case variants *)

Lemma case_combos_cons (c : char) (word : str) :
  case_combos (c :: word)
  = set_map (app (lower c)) (case_combos word)
    ∪ set_map (app (upper c)) (case_combos word).
Proof.
  apply set_eq. intros s.
  rewrite elem_of_union, !elem_of_map, elem_of_case_combos.
  setoid_rewrite elem_of_case_combos. split.
  - intros ([|up choices] & Hlen & ->); [done|].
    simplify_eq/=. destruct up; [right|left]; eexists; eauto.
  - intros [(s' & -> & choices & Hlen & ->)|(s' & -> & choices & Hlen & ->)].
    + exists (false :: choices). split; [simpl; by rewrite Hlen|done].
    + exists (true :: choices). split; [simpl; by rewrite Hlen|done].
Qed.

Lemma size_set_map_app (piece : str) (X : gset str) :
  size (set_map (app piece) X : gset str) = size X.
Proof.
  unfold set_map. rewrite size_list_to_set, length_fmap; [done|].
  apply NoDup_fmap_2; [|apply NoDup_elements].
  intros s1 s2. apply app_inv_head.
Qed.

Lemma cases_apart_latin1 (c : char) : (c < 256)%N → cases_apart c = true.
Proof.
  intros Hc.
  assert (forallb cases_apart (N.of_nat <$> seq 0 256) = true) as Hall
    by (vm_compute; reflexivity).
  rewrite forallb_forall in Hall. apply Hall.
  apply list_elem_of_In, list_elem_of_fmap. exists (N.to_nat c).
  split; [by rewrite N2Nat.id|].
  apply list_elem_of_In, in_seq. lia.
Qed.

Lemma cases_disjoint (c : char) (X : gset str) :
  (c < 256)%N → lower c ≠ upper c →
  (set_map (app (lower c)) X : gset str) ## set_map (app (upper c)) X.
Proof.
  intros Hc Hne. apply cases_apart_latin1 in Hc. unfold cases_apart in Hc.
  apply orb_true_iff in Hc as [Heq%bool_decide_eq_true|Hheads]; [done|].
  apply elem_of_disjoint. intros s (s1 & -> & _)%elem_of_map (s2 & Heq & _)%elem_of_map.
  destruct (lower c) as [|x low], (upper c) as [|y up]; try done.
  apply negb_true_iff, N.eqb_neq in Hheads. by simplify_eq/=.
Qed.

(** X22: the number of case variants of a source word is two to the number
    of its characters whose lower and upper cases differ. *)
Theorem X22_number_of_case_variants (line : string) :
  size (case_combos (word_of line))
  = 2 ^ length (filter (fun c => lower c ≠ upper c) (word_of line)).
Proof.
  pose proof (word_of_bounded line) as Hword.
  induction Hword as [|c word Hc _ IH]; [done|].
  rewrite case_combos_cons, filter_cons.
  destruct (decide (lower c ≠ upper c)) as [Hne|Heq].
  - rewrite size_union by by apply cases_disjoint.
    rewrite !size_set_map_app, IH. simpl. lia.
  - apply dec_stable in Heq. rewrite Heq, union_idemp_L.
    by rewrite size_set_map_app.
Qed.

(** ** The length of the padded words *)

(** X23: every string that a run of padding writes has the target length,
    whatever the words of the source, the charset and the direction. *)
Theorem X23_padded_have_target_length (L : Z) (charset : str) (prepend : bool)
    (lines : list string) (s : str) :
  s ∈ pad_lines L charset prepend lines → Z.of_nat (length s) = L.
Proof.
  rewrite pad_lines_bind. intros (line & Hs & _)%list_elem_of_bind.
  destruct (Z.lt_trichotomy (Z.of_nat (length (word_of line))) L)
    as [Hlt|[Heq|Hgt]].
  - rewrite pad_word_shorter, app_nil_l in Hs by done.
    apply list_elem_of_fmap in Hs as (p & -> & [Hlen _]%elem_of_paddings).
    unfold padded. destruct prepend; rewrite length_app; lia.
  - rewrite pad_word_equal in Hs by done.
    by apply list_elem_of_singleton in Hs as ->.
  - rewrite pad_word_longer in Hs by done. by apply elem_of_nil in Hs.
Qed.

Lemma X23_witness : Z.of_nat (length (lit "ab1")) = 3%Z.
Proof.
  apply (X23_padded_have_target_length 3 (lit "01") false
           ["ab"; "abc"; "abcd"]%string (lit "ab1")).
  vm_compute. set_solver.
Defined.

(** * The runs *)

(** ** Reading back what the filter wrote *)

Lemma bytes_of_app (text1 text2 : str) :
  bytes_of (text1 ++ text2) = String.append (bytes_of text1) (bytes_of text2).
Proof.
  unfold bytes_of. induction text1 as [|c text1 IH]; [done|].
  rewrite <- app_comm_cons, !fmap_cons. cbn [string_of_list_ascii].
  by rewrite IH.
Qed.

Lemma ascii_of_N_neq (c n : N) :
  (c < 256)%N → (n < 256)%N → c ≠ n →
  Ascii.eqb (ascii_of_N c) (ascii_of_N n) = false.
Proof.
  intros Hc Hn Hne. apply Ascii.eqb_neq. intros Heq. apply Hne.
  by rewrite <- (N_ascii_embedding c), <- (N_ascii_embedding n), Heq.
Qed.

Lemma file_lines_word (w : str) (rest : string) :
  Forall (fun c => (c < 256)%N) w → 10%N ∉ w → 13%N ∉ w →
  file_lines (String.append (bytes_of w) (String "010" rest))
  = line_of w :: file_lines rest.
Proof.
  unfold line_of, line_feed.
  induction 1 as [|c w Hc _ IH]; intros Hlf Hcr; [done|].
  apply not_elem_of_cons in Hlf as [Hclf Hlf].
  apply not_elem_of_cons in Hcr as [Hccr Hcr].
  unfold bytes_of in *. rewrite fmap_cons. cbn [string_of_list_ascii].
  change (String.append (String ?a ?x) ?y) with (String a (String.append x y)).
  cbn [file_lines].
  change "010"%char with (ascii_of_N 10). change "013"%char with (ascii_of_N 13).
  rewrite !ascii_of_N_neq by (done || lia).
  change (ascii_of_N 10) with "010"%char. by rewrite IH.
Qed.

Lemma text_word_by_word (words : list str) :
  words ≠ [] →
  join newline words ++ newline = concat ((fun w => w ++ newline) <$> words).
Proof.
  induction words as [|w words IH]; [done|]. intros _.
  destruct words as [|w' words].
  - simpl. by rewrite app_nil_r.
  - change (join newline (w :: w' :: words))
      with (w ++ newline ++ join newline (w' :: words)).
    rewrite fmap_cons, concat_cons, <- IH by done.
    by rewrite <- !app_assoc.
Qed.

Lemma file_lines_text (words : list str) :
  Forall (fun w => Forall (fun c => (c < 256)%N) w ∧ (10%N ∉ w) ∧ (13%N ∉ w))
    words →
  file_lines (bytes_of (concat ((fun w => w ++ newline) <$> words)))
  = line_of <$> words.
Proof.
  induction 1 as [|w words (Hw & Hlf & Hcr) _ IH]; [done|].
  rewrite fmap_cons, concat_cons, <- app_assoc, !bytes_of_app.
  change (String.append (bytes_of newline) ?x) with (String "010" x).
  by rewrite file_lines_word, IH, fmap_cons.
Qed.

(** X5: the filter run again on the file a first run wrote.  The first run
    writes a fresh output; its lines are then filtered with other
    parameters.  The result is the words the first run kept that pass the
    second filter, in the same order; but a first run that kept nothing
    wrote one line feed, which is read as one empty word.  Run again with
    its own parameters on a result that is not empty, the filter keeps
    every word. *)
Theorem X5_filter_of_written_output (sys : os) (file output : string)
    (a1 a2 : lengths) (conditions1 conditions2 : str) (lines : list string)
    (σ : state) :
  read_lines sys file = inr lines →
  append_raises sys output = None →
  files σ !! output = None →
  (∀ w, w ∈ extract_lines a1 conditions1 lines → (10%N ∉ w) ∧ (13%N ∉ w)) →
  ∃ content,
    files (extractWords sys file a1 conditions1 output σ).2 !! output
    = Some content
    ∧ extract_lines a2 conditions2 (file_lines content)
      = filter (kept a2 (build_blacklist conditions2))
          (match extract_lines a1 conditions1 lines with
           | [] => [[]]
           | words => words
           end)
    ∧ (extract_lines a1 conditions1 lines ≠ [] →
       extract_lines a1 conditions1 (file_lines content)
       = extract_lines a1 conditions1 lines).
Proof.
  intros Hread Happend Hfresh Hplain.
  set (words := extract_lines a1 conditions1 lines) in *.
  exists (bytes_of (join newline words ++ newline)).
  assert (∀ a conditions, words ≠ [] →
            extract_lines a conditions
              (file_lines (bytes_of (join newline words ++ newline)))
            = extract_lines a conditions (line_of <$> words)) as Hlines.
  { intros a conditions Hwords. rewrite text_word_by_word by done.
    rewrite file_lines_text; [done|]. apply Forall_forall. intros w Hw.
    destruct (Hplain w Hw) as [Hlf Hcr]. split; [|done].
    apply (proj1 (Forall_forall _ _) (extract_lines_bounded a1 conditions1 lines)).
    done. }
  split; [|split].
  - assert (encode_latin1 (join newline words ++ newline)
            = inr (bytes_of (join newline words ++ newline))) as Hencode.
    { apply encode_latin1_bounded, text_bounded, extract_lines_bounded. }
    unfold extractWords.
    rewrite (save_run sys file output _ lines
               (extract_lines_with a1 (build_blacklist conditions1))
               (bytes_of (join newline words ++ newline)) σ Hread Happend
               Hencode).
    cbn [snd files]. by rewrite lookup_insert_eq, Hfresh.
  - destruct words as [|w words'] eqn:Hwords.
    + unfold extract_lines, extract_lines_with.
      by rewrite extract_loop_filter.
    + rewrite Hlines by done. rewrite <- Hwords.
      apply (proj1 (filter_of_kept_words a1 a2 conditions1 conditions2 lines)).
  - intros Hwords. rewrite Hlines by done.
    apply (proj2 (filter_of_kept_words a1 a1 conditions1 conditions1 lines)).
Qed.

Lemma X5_witness :
  ∃ content,
    files (extractWords (source_of ["Ab1"; "go"; "a1"; "abcd"]%string) "words.txt"
             {| max_length := Some 3%Z; exact_length := None; min_length := None |}
             (lit "?u") "out.txt" nothing_written).2 !! "out.txt"%string
    = Some content
    ∧ extract_lines (exactly 2) [] (file_lines content) = [lit "go"; lit "a1"].
Proof.
  destruct (X5_filter_of_written_output
              (source_of ["Ab1"; "go"; "a1"; "abcd"]%string) "words.txt" "out.txt"
              {| max_length := Some 3%Z; exact_length := None; min_length := None |}
              (exactly 2) (lit "?u") [] ["Ab1"; "go"; "a1"; "abcd"]%string
              nothing_written) as (content & Hcontent & Hagain & _).
  - reflexivity.
  - reflexivity.
  - reflexivity.
  - intros w Hw. change (w ∈ [lit "go"; lit "a1"]) in Hw.
    assert (w = lit "go" ∨ w = lit "a1") as [-> | ->] by set_solver;
      split; intros Hin%(bool_decide_pack _); by vm_compute in Hin.
  - exists content. split; [exact Hcontent|]. rewrite Hagain. reflexivity.
Defined.

(** ** A run of padding *)

Lemma pad_lines_around L charset prepend (before after : list string)
    (line : string) :
  pad_lines L charset prepend (before ++ line :: after)
  = pad_lines L charset prepend before
    ++ pad_word L charset prepend [] (word_of line)
    ++ pad_lines L charset prepend after.
Proof. by rewrite !pad_lines_bind, bind_app, bind_cons. Qed.

(** C3, on the run: the resolved charset [C] has only latin-1 characters,
    the source is read and the output opened.  For a source word [W]
    shorter than the target length [L], generateDictionary appends, between
    what the lines before and the lines after give, [length C ^ (L - length
    W)] strings (without repetition when [C] has none), each of length [L],
    each with [W] as a prefix (append mode) or a suffix (prepend mode); the
    string number [i] carries the padding whose position [j] is digit [j]
    of [i] in base [length C], so the last padding position cycles
    fastest. *)
Theorem C3_pad_shorter_run (sys : os) (file output : string) (L : Z)
    (charset : str) (prepend : bool) (before after : list string)
    (line : string) (σ : state) :
  let C := parse_charset charset in
  let W := word_of line in
  let k := Z.to_nat (L - Z.of_nat (length W)) in
  Forall (fun c => (c < 256)%N) C →
  read_lines sys file = inr (before ++ line :: after) →
  append_raises sys output = None →
  (Z.of_nat (length W) < L)%Z →
  ∃ (emitted : list str) (bytes : string),
    generateDictionary sys file L charset output prepend σ
    = appended output bytes (SavedTo "Generated words" output) σ
    ∧ decode_latin1 bytes
      = join newline
          (pad_lines L C prepend before ++ emitted
           ++ pad_lines L C prepend after)
        ++ newline
    ∧ length emitted = length C ^ k
    ∧ (NoDup C → NoDup emitted)
    ∧ Forall (fun s => Z.of_nat (length s) = L
                       ∧ if prepend then W `suffix_of` s else W `prefix_of` s)
        emitted
    ∧ ∀ i, i < length C ^ k →
        ∃ padding,
          emitted !! i = Some (padded prepend W padding)
          ∧ length padding = k
          ∧ ∀ j, j < k →
              padding !! j = C !! ((i / length C ^ (k - 1 - j)) `mod` length C).
Proof.
  intros C W k Hcharset Hread Happend Hshort. subst C W k.
  destruct (pad_run_saved sys file output L charset prepend _ σ
              Hcharset Hread Happend) as (bytes & Hrun & Hbytes).
  destruct (pad_shorter_emitted L charset prepend [] (word_of line) Hshort)
    as (emitted & Hemitted & Hprops).
  exists emitted, bytes. split; [exact Hrun|]. split; [|exact Hprops].
  rewrite Hbytes, pad_lines_around. by rewrite Hemitted.
Qed.

Lemma C3_witness :
  ∃ (emitted : list str) (bytes : string),
    generateDictionary (source_of ["abcd"; "ab"; "x"]%string) "words.txt" 4
      (lit "01") "out.txt" false one_word_written
    = appended "out.txt" bytes (SavedTo "Generated words" "out.txt")
        one_word_written
    ∧ decode_latin1 bytes
      = join newline
          (pad_lines 4 (lit "01") false ["abcd"%string] ++ emitted
           ++ pad_lines 4 (lit "01") false ["x"%string])
        ++ newline
    ∧ length emitted = 2 ^ 2
    ∧ (NoDup (lit "01") → NoDup emitted)
    ∧ Forall (fun s => Z.of_nat (length s) = 4%Z ∧ lit "ab" `prefix_of` s) emitted
    ∧ ∀ i, i < 2 ^ 2 →
        ∃ padding,
          emitted !! i = Some (lit "ab" ++ padding)
          ∧ length padding = 2
          ∧ ∀ j, j < 2 →
              padding !! j = lit "01" !! ((i / 2 ^ (2 - 1 - j)) `mod` 2).
Proof.
  apply (C3_pad_shorter_run (source_of ["abcd"; "ab"; "x"]%string) "words.txt"
           "out.txt" 4 (lit "01") false ["abcd"%string] ["x"%string] "ab"%string
           one_word_written).
  - repeat constructor.
  - reflexivity.
  - reflexivity.
  - vm_compute. reflexivity.
Defined.

(** C3 fails as stated for a charset that is not latin-1: with the charset
    of the one character U+20AC the word ["ab"], one short of the target
    length, should give one string; the run appends nothing and reports an
    encoding error. *)
Lemma C3_counterexample :
  generateDictionary (source_of ["ab"%string]) "words.txt" 3 [8364%N] "out.txt"
    false one_word_written
  = (inr (),
     {| files := files one_word_written;
        stdout := [ErrorOccurred UnicodeEncodeError] |})
  ∧ length (parse_charset [8364%N]) ^ Z.to_nat (3 - 2) = 1.
Proof. split; reflexivity. Qed.

(** C6, on the run: the resolved charset has only latin-1 characters, the
    source is read and the output opened.  A source word whose length is the
    target length is appended itself, once and unchanged, between what the
    lines before and the lines after give; a longer word adds nothing. *)
Theorem C6_pad_exact_or_longer_run (sys : os) (file output : string) (L : Z)
    (charset : str) (prepend : bool) (before after : list string)
    (line : string) (σ : state) :
  let C := parse_charset charset in
  let W := word_of line in
  Forall (fun c => (c < 256)%N) C →
  read_lines sys file = inr (before ++ line :: after) →
  append_raises sys output = None →
  ∃ bytes : string,
    generateDictionary sys file L charset output prepend σ
    = appended output bytes (SavedTo "Generated words" output) σ
    ∧ (Z.of_nat (length W) = L →
       decode_latin1 bytes
       = join newline
           (pad_lines L C prepend before ++ [W]
            ++ pad_lines L C prepend after)
         ++ newline)
    ∧ ((L < Z.of_nat (length W))%Z →
       decode_latin1 bytes
       = join newline
           (pad_lines L C prepend before ++ pad_lines L C prepend after)
         ++ newline).
Proof.
  intros C W Hcharset Hread Happend. subst C W.
  destruct (pad_run_saved sys file output L charset prepend _ σ
              Hcharset Hread Happend) as (bytes & Hrun & Hbytes).
  exists bytes. split; [exact Hrun|].
  rewrite Hbytes, pad_lines_around. split.
  - intros Hequal. by rewrite (pad_word_equal L _ prepend [] _ Hequal).
  - intros Hlonger. by rewrite (pad_word_longer L _ prepend [] _ Hlonger).
Qed.

Lemma C6_witness :
  ∃ bytes : string,
    generateDictionary (source_of ["ab"; "abc"; "abcd"]%string) "words.txt" 3
      (lit "01") "out.txt" true one_word_written
    = appended "out.txt" bytes (SavedTo "Generated words" "out.txt")
        one_word_written
    ∧ decode_latin1 bytes
      = lit "0ab" ++ newline ++ lit "1ab" ++ newline ++ lit "abc" ++ newline.
Proof.
  destruct (C6_pad_exact_or_longer_run
              (source_of ["ab"; "abc"; "abcd"]%string) "words.txt" "out.txt" 3
              (lit "01") true ["ab"%string] ["abcd"%string] "abc"%string
              one_word_written) as (bytes & Hrun & Hequal & _).
  - repeat constructor.
  - reflexivity.
  - reflexivity.
  - exists bytes. split; [exact Hrun|]. rewrite Hequal; reflexivity.
Defined.

(** C6 fails as stated for a charset that is not latin-1: in a source with
    ["abc"] and ["ab"], target length three and the charset of the one
    character U+20AC, the word ["abc"] has the target length and is not
    written: the run appends nothing and reports an encoding error. *)
Lemma C6_counterexample :
  generateDictionary (source_of ["abc"; "ab"]%string) "words.txt" 3 [8364%N]
    "out.txt" false one_word_written
  = (inr (),
     {| files := files one_word_written;
        stdout := [ErrorOccurred UnicodeEncodeError] |})
  ∧ Z.of_nat (length (word_of "abc")) = 3%Z.
Proof. split; reflexivity. Qed.

(** ** A run of case expansion *)

(** The lines are written in the order in which the set is iterated, which
    Python leaves open: the properties below only say that the lines
    written are some list without repetition of the strings of the set. *)

(** C4, on the run: no word of the source has the micro sign (byte 181) or
    y with diaeresis (byte 255), whose upper cases are not latin-1; the
    source is read and the output opened.  Without extended mode
    generateCombinatory appends, in some order and without repetition, the
    strings got from a source word by choosing upper or lower case at each
    position, and nothing else.  The variants of a word [W] are at most [2 ^
    length W]; each equals [W] under case folding; each has the length of
    [W] when [W] has no sharp s, whose upper case is the two letters
    ["SS"], and in general a length between [length W] and twice that.
    For the source ["go"] the lines are ["go"], ["gO"], ["Go"], ["GO"]. *)
Theorem C4_case_variants_run (sys : os) (file output : string)
    (lines : list string) (σ : state) :
  read_lines sys file = inr lines →
  append_raises sys output = None →
  (∀ line, line ∈ lines →
     (181%N ∉ word_of line) ∧ (255%N ∉ word_of line)) →
  ∃ (written : list str) (bytes : string),
    generateCombinatory sys file output false σ
    = appended output bytes (SavedTo "Combinatory words" output) σ
    ∧ decode_latin1 bytes = join newline written ++ newline
    ∧ NoDup written
    ∧ (∀ s, s ∈ written
            ↔ ∃ line (choices : list bool),
                line ∈ lines
                ∧ length choices = length (word_of line)
                ∧ s = case_choice choices (word_of line))
    ∧ (∀ line, line ∈ lines →
         let W := word_of line in
         ∃ variants : list str,
           NoDup variants
           ∧ variants ⊆ written
           ∧ (∀ s, s ∈ variants
                   ↔ ∃ choices : list bool,
                       length choices = length W ∧ s = case_choice choices W)
           ∧ length variants ≤ 2 ^ length W
           ∧ ∀ s, s ∈ variants →
                  casefold s = casefold W
                  ∧ length W ≤ length s ≤ 2 * length W
                  ∧ (223%N ∉ W → length s = length W))
    ∧ (lines = ["go"%string] →
       written ≡ₚ [lit "go"; lit "gO"; lit "Go"; lit "GO"]).
Proof.
  intros Hread Happend Hplain.
  destruct (combinatory_run_saved sys file output false lines σ
              Hread Happend Hplain) as (bytes & Hrun & Hbytes).
  set (written := elements (list_to_set (combinatory_lines false lines)
                             : gset str)) in *.
  assert (∀ s, s ∈ written
               ↔ ∃ line, line ∈ lines ∧ s ∈ case_combos (word_of line))
    as Hwritten.
  { intros s. unfold written.
    rewrite elem_of_elements, elem_of_list_to_set, elem_of_combinatory_lines.
    naive_solver. }
  exists written, bytes. split; [exact Hrun|]. split; [exact Hbytes|].
  split; [apply NoDup_elements|]. split; [|split].
  - intros s. rewrite Hwritten. setoid_rewrite elem_of_case_combos.
    naive_solver.
  - intros line Hline W. exists (elements (case_combos W)).
    split; [apply NoDup_elements|]. split; [|split; [|split]].
    + intros s Hs%elem_of_elements. apply Hwritten. by exists line.
    + intros s. rewrite elem_of_elements. apply elem_of_case_combos.
    + apply size_case_combos.
    + intros s Hs%elem_of_elements.
      by apply (case_variants_of_word line).
  - intros ->. unfold written.
    apply (bool_decide_unpack _). by vm_compute.
Qed.

Lemma C4_witness :
  ∃ (written : list str) (bytes : string),
    generateCombinatory (source_of ["go"%string]) "words.txt" "out.txt" false
      one_word_written
    = appended "out.txt" bytes (SavedTo "Combinatory words" "out.txt")
        one_word_written
    ∧ decode_latin1 bytes = join newline written ++ newline
    ∧ written ≡ₚ [lit "go"; lit "gO"; lit "Go"; lit "GO"].
Proof.
  destruct (C4_case_variants_run (source_of ["go"%string]) "words.txt" "out.txt"
              ["go"%string] one_word_written)
    as (written & bytes & Hrun & Hbytes & _ & _ & _ & Hgo).
  - reflexivity.
  - reflexivity.
  - intros line ->%list_elem_of_singleton.
    split; intros Hin%(bool_decide_pack _); by vm_compute in Hin.
  - exists written, bytes. split; [exact Hrun|]. split; [exact Hbytes|].
    by apply Hgo.
Defined.

(** C4 fails as stated: for the source word made of a sharp s, of length
    one, the run writes the two lines ["ß"] and ["SS"], and ["SS"] has
    length two. *)
Lemma C4_counterexample :
  ∃ written : list str,
    generateCombinatory (source_of [sharp_s]) "words.txt" "out.txt" false
      nothing_written
    = (inr (),
       {| files := {[ "out.txt"%string := bytes_of (join newline written ++ newline) ]};
          stdout := [SavedTo "Combinatory words" "out.txt"] |})
    ∧ written ≡ₚ [[223%N]; lit "SS"]
    ∧ word_of sharp_s = [223%N]
    ∧ length (lit "SS") = 2.
Proof.
  exists (elements (list_to_set (combinatory_lines false [sharp_s]) : gset str)).
  split; [reflexivity|]. split; [|by split].
  apply (bool_decide_unpack _). by vm_compute.
Qed.

(** X15: no word of the source has the byte 181 or 255, the source is read
    and the output opened.  The lines that generateCombinatory appends are,
    in some order and without repetition, exactly the case variants of the
    words of the source and, in extended mode, for every variant its
    characters, each as a string of its own, and its single substitutions. *)
Theorem X15_combinatory_run (sys : os) (file output : string)
    (extended : bool) (lines : list string) (σ : state) :
  read_lines sys file = inr lines →
  append_raises sys output = None →
  (∀ line, line ∈ lines →
     (181%N ∉ word_of line) ∧ (255%N ∉ word_of line)) →
  ∃ (written : list str) (bytes : string),
    generateCombinatory sys file output extended σ
    = appended output bytes (SavedTo "Combinatory words" output) σ
    ∧ decode_latin1 bytes = join newline written ++ newline
    ∧ NoDup written
    ∧ ∀ s, s ∈ written
           ↔ ∃ line,
               line ∈ lines
               ∧ (s ∈ case_combos (word_of line)
                  ∨ (extended = true
                     ∧ ∃ combo,
                         combo ∈ case_combos (word_of line)
                         ∧ ((∃ c, c ∈ combo ∧ s = [c])
                            ∨ s ∈ single_substitutions combo))).
Proof.
  intros Hread Happend Hplain.
  destruct (combinatory_run_saved sys file output extended lines σ
              Hread Happend Hplain) as (bytes & Hrun & Hbytes).
  eexists _, bytes. split; [exact Hrun|]. split; [exact Hbytes|].
  split; [apply NoDup_elements|].
  intros s. apply (combinatory_set extended lines s).
Qed.

Lemma X15_witness :
  ∃ (written : list str) (bytes : string),
    generateCombinatory (source_of ["go"; "a1"]%string) "words.txt" "out.txt"
      true one_word_written
    = appended "out.txt" bytes (SavedTo "Combinatory words" "out.txt")
        one_word_written
    ∧ decode_latin1 bytes = join newline written ++ newline
    ∧ NoDup written
    ∧ lit "g0" ∈ written ∧ lit "g" ∈ written ∧ lit "A1" ∈ written.
Proof.
  destruct (X15_combinatory_run (source_of ["go"; "a1"]%string) "words.txt"
              "out.txt" true ["go"; "a1"]%string one_word_written)
    as (written & bytes & Hrun & Hbytes & Hnodup & Hwritten).
  - reflexivity.
  - reflexivity.
  - intros line [->| ->%list_elem_of_singleton]%elem_of_cons;
      split; intros Hin%(bool_decide_pack _); by vm_compute in Hin.
  - exists written, bytes. split; [exact Hrun|]. split; [exact Hbytes|].
    split; [exact Hnodup|]. split; [|split]; apply Hwritten.
    + exists "go"%string. split; [apply list_elem_of_here|].
      right. split; [done|]. exists (lit "go").
      split; [apply (bool_decide_unpack _); by vm_compute|]. right.
      apply (bool_decide_unpack _). by vm_compute.
    + exists "go"%string. split; [apply list_elem_of_here|].
      right. split; [done|]. exists (lit "go").
      split; [apply (bool_decide_unpack _); by vm_compute|]. left.
      exists 103%N. split; [apply (bool_decide_unpack _); by vm_compute|done].
    + exists "a1"%string.
      split; [apply list_elem_of_further, list_elem_of_here|]. left.
      apply (bool_decide_unpack _). by vm_compute.
Defined.

(** X17: no word of the source has the byte 181 or 255, the source is read
    and the output opened.  Every word of the source is one of its own case
    variants, so generateCombinatory writes every word it reads. *)
Theorem X17_words_are_written (sys : os) (file output : string)
    (extended : bool) (lines : list string) (line : string) (σ : state) :
  read_lines sys file = inr lines →
  append_raises sys output = None →
  (∀ line, line ∈ lines →
     (181%N ∉ word_of line) ∧ (255%N ∉ word_of line)) →
  line ∈ lines →
  ∃ (written : list str) (bytes : string),
    generateCombinatory sys file output extended σ
    = appended output bytes (SavedTo "Combinatory words" output) σ
    ∧ decode_latin1 bytes = join newline written ++ newline
    ∧ word_of line ∈ written.
Proof.
  intros Hread Happend Hplain Hline.
  destruct (combinatory_run_saved sys file output extended lines σ
              Hread Happend Hplain) as (bytes & Hrun & Hbytes).
  eexists _, bytes. split; [exact Hrun|]. split; [exact Hbytes|].
  apply elem_of_elements.
  by apply (word_among_its_variants extended lines line).
Qed.

Lemma X17_witness :
  ∃ (written : list str) (bytes : string),
    generateCombinatory (source_of ["ab"; " Go "]%string) "words.txt" "out.txt"
      true one_word_written
    = appended "out.txt" bytes (SavedTo "Combinatory words" "out.txt")
        one_word_written
    ∧ decode_latin1 bytes = join newline written ++ newline
    ∧ lit "Go" ∈ written.
Proof.
  apply (X17_words_are_written (source_of ["ab"; " Go "]%string) "words.txt"
           "out.txt" true ["ab"; " Go "]%string " Go "%string one_word_written).
  - reflexivity.
  - reflexivity.
  - intros line [->| ->%list_elem_of_singleton]%elem_of_cons;
      split; intros Hin%(bool_decide_pack _); by vm_compute in Hin.
  - apply list_elem_of_further, list_elem_of_here.
Defined.

(** X19: when no word of the source has the micro sign (byte 181) or y
    with diaeresis (byte 255), generateCombinatory never fails on encoding,
    in either mode: the source read and the output opened, it prints that
    the words were saved and appends bytes that decode to the strings of
    the set it built, each once, one per line, in some order. *)
Theorem X19_generateCombinatory_saves (sys : os) (file output : string)
    (extended : bool) (lines : list string) (σ : state) :
  read_lines sys file = inr lines →
  append_raises sys output = None →
  (∀ line, line ∈ lines →
     (181%N ∉ word_of line) ∧ (255%N ∉ word_of line)) →
  ∃ (written : list str) (bytes : string),
    generateCombinatory sys file output extended σ
    = appended output bytes (SavedTo "Combinatory words" output) σ
    ∧ decode_latin1 bytes = join newline written ++ newline
    ∧ written
      ≡ₚ elements (list_to_set (combinatory_lines extended lines) : gset str).
Proof.
  intros Hread Happend Hplain.
  destruct (combinatory_run_saved sys file output extended lines σ
              Hread Happend Hplain) as (bytes & Hrun & Hbytes).
  eexists _, bytes. split; [exact Hrun|]. split; [exact Hbytes|done].
Qed.

Lemma X19_witness :
  ∃ (written : list str) (bytes : string),
    generateCombinatory (source_of ["a1"; "go"]%string) "words.txt" "out.txt"
      false one_word_written
    = appended "out.txt" bytes (SavedTo "Combinatory words" "out.txt")
        one_word_written
    ∧ decode_latin1 bytes = join newline written ++ newline
    ∧ written
      ≡ₚ [lit "a1"; lit "A1"; lit "go"; lit "gO"; lit "Go"; lit "GO"].
Proof.
  destruct (X19_generateCombinatory_saves (source_of ["a1"; "go"]%string)
              "words.txt" "out.txt" false ["a1"; "go"]%string one_word_written)
    as (written & bytes & Hrun & Hbytes & Hwritten).
  - reflexivity.
  - reflexivity.
  - intros line [->| ->%list_elem_of_singleton]%elem_of_cons;
      split; intros Hin%(bool_decide_pack _); by vm_compute in Hin.
  - exists written, bytes. split; [exact Hrun|]. split; [exact Hbytes|].
    rewrite Hwritten. apply (bool_decide_unpack _). by vm_compute.
Defined.
